(** * ScoutSuite provider utilities: a shallow embedding and its properties

    The development follows [ScoutSuite/providers/utils.py] and
    [ScoutSuite/providers/gcp/facade/cloudsql.py].

    - [Hasher]   : [get_non_provider_id], with the UTF-8 encoder and SHA-1
                   written out over [Z] words;
    - [Asyncio]  : the part of the asyncio event loop the two concurrent
                   helpers rely on (tasks, [ensure_future], [wait],
                   [as_completed]), driven by an explicit schedule;
    - [Utils]    : [run_concurrently], [get_and_set_concurrently] and
                   [map_concurrently];
    - [CloudSQL] : the facade methods and the page walker they call. *)

From Stdlib Require Import ZArith String Ascii.
From stdpp Require Import gmap strings list.

Local Open Scope Z_scope.

(** ** Outcomes of Python calls *)

(** The exceptions that the modelled code can see.  [UnicodeEncodeError] and
    [ValueError] are the two that the Python runtime raises on the paths
    modelled here; [OtherError] stands for any other exception, such as the
    one a caller-supplied operation or a remote call fails with. *)
Inductive exn : Type :=
| UnicodeEncodeError
| ValueError
| OtherError (description : string).

(** What a call has done by the time it is observed: it returned a value, it
    raised, or it is still suspended at an [await]. *)
Inductive status (A : Type) : Type :=
| Returned (a : A)
| Raised (x : exn)
| Blocked.
Arguments Returned {A} a.
Arguments Raised {A} x.
Arguments Blocked {A}.

(** ** The identifier hasher *)
Module Hasher.

(** A Python [str] is a sequence of code points. *)
Definition codepoint := Z.
Definition pystr := list codepoint.

Definition is_codepoint (c : codepoint) : bool :=
  (0 <=? c) && (c <=? 0x10FFFF).

Definition is_surrogate (c : codepoint) : bool :=
  (0xD800 <=? c) && (c <=? 0xDFFF).

(** [str.encode('utf-8')] with the default (strict) error handler: a lone
    surrogate cannot be encoded.  Values outside the code space are not the
    code point of any [str]; the encoder has no answer for them. *)
Definition encode_char (c : codepoint) : option (list Z) :=
  if negb (is_codepoint c) then None
  else if c <? 0x80 then Some [c]
  else if c <? 0x800 then
    Some [Z.lor 0xC0 (Z.shiftr c 6); Z.lor 0x80 (Z.land c 0x3F)]
  else if c <? 0x10000 then
    if is_surrogate c then None
    else Some [Z.lor 0xE0 (Z.shiftr c 12);
               Z.lor 0x80 (Z.land (Z.shiftr c 6) 0x3F);
               Z.lor 0x80 (Z.land c 0x3F)]
  else
    Some [Z.lor 0xF0 (Z.shiftr c 18);
          Z.lor 0x80 (Z.land (Z.shiftr c 12) 0x3F);
          Z.lor 0x80 (Z.land (Z.shiftr c 6) 0x3F);
          Z.lor 0x80 (Z.land c 0x3F)].

Fixpoint encode_utf8 (s : pystr) : option (list Z) :=
  match s with
  | [] => Some []
  | c :: s' =>
      match encode_char c, encode_utf8 s' with
      | Some bs, Some rest => Some (bs ++ rest)
      | _, _ => None
      end
  end.

(** *** SHA-1 (FIPS 180-4) on 32-bit words *)

Definition w32 (x : Z) : Z := x mod 2 ^ 32.
Definition add32 (x y : Z) : Z := w32 (x + y).
Definition rotl (n x : Z) : Z :=
  Z.lor (w32 (Z.shiftl x n)) (Z.shiftr x (32 - n)).
Definition not32 (x : Z) : Z := Z.lxor x 0xFFFFFFFF.

Definition pad_zeros (len : Z) : nat := Z.to_nat ((55 - len) mod 64).

(** The message followed by 0x80, zero bytes up to 56 mod 64, and the bit
    length as a 64-bit big-endian integer. *)
Definition be_bytes (n : nat) (x : Z) : list Z :=
  (fun i => Z.land (Z.shiftr x (8 * Z.of_nat i)) 0xFF) <$> rev (seq 0 n).

Definition pad (msg : list Z) : list Z :=
  let len := Z.of_nat (length msg) in
  msg ++ [0x80] ++ replicate (pad_zeros len) 0
      ++ be_bytes 8 ((8 * len) mod 2 ^ 64).

Definition be_word (bs : list Z) : Z :=
  foldl (fun acc b => Z.lor (Z.shiftl acc 8) b) 0 bs.

Fixpoint chunks {A} (fuel size : nat) (l : list A) : list (list A) :=
  match fuel with
  | O => []
  | S fuel' =>
      match l with
      | [] => []
      | _ => take size l :: chunks fuel' size (drop size l)
      end
  end.

Definition words_of_block (block : list Z) : list Z :=
  be_word <$> chunks 16 4 block.

Fixpoint expand (n : nat) (ws : list Z) : list Z :=
  match n with
  | O => ws
  | S n' =>
      let i := length ws in
      let at_ k := nth (i - k) ws 0 in
      expand n' (ws ++ [rotl 1 (Z.lxor (Z.lxor (Z.lxor (at_ 3%nat) (at_ 8%nat))
                                               (at_ 14%nat)) (at_ 16%nat))])
  end.

Record state := State { ha : Z; hb : Z; hc : Z; hd : Z; he : Z }.

Definition initial : state :=
  State 0x67452301 0xEFCDAB89 0x98BADCFE 0x10325476 0xC3D2E1F0.

Definition round_f (i : nat) (b c d : Z) : Z :=
  if (i <? 20)%nat then Z.lor (Z.land b c) (Z.land (not32 b) d)
  else if (i <? 40)%nat then Z.lxor (Z.lxor b c) d
  else if (i <? 60)%nat then
    Z.lor (Z.lor (Z.land b c) (Z.land b d)) (Z.land c d)
  else Z.lxor (Z.lxor b c) d.

Definition round_k (i : nat) : Z :=
  if (i <? 20)%nat then 0x5A827999
  else if (i <? 40)%nat then 0x6ED9EBA1
  else if (i <? 60)%nat then 0x8F1BBCDC
  else 0xCA62C1D6.

Definition round (s : state) (iw : nat * Z) : state :=
  let '(i, w) := iw in
  let temp :=
    add32 (add32 (add32 (add32 (rotl 5 (ha s)) (round_f i (hb s) (hc s) (hd s)))
                        (he s)) (round_k i)) w in
  State temp (ha s) (rotl 30 (hb s)) (hc s) (hd s).

Definition compress (h : state) (block : list Z) : state :=
  let ws := expand 64 (words_of_block block) in
  let s := foldl round h (zip (seq 0 80) ws) in
  State (add32 (ha h) (ha s)) (add32 (hb h) (hb s)) (add32 (hc h) (hc s))
        (add32 (hd h) (hd s)) (add32 (he h) (he s)).

Definition sha1 (msg : list Z) : state :=
  let padded := pad msg in
  foldl compress initial (chunks (length padded) 64 padded).

(** *** [hexdigest] *)

Definition hex_digit (n : Z) : ascii :=
  match String.get (Z.to_nat (n mod 16)) "0123456789abcdef" with
  | Some c => c
  | None => "0"%char
  end.

Definition hex_word (x : Z) : list ascii :=
  (fun i => hex_digit (Z.shiftr x (4 * Z.of_nat i))) <$> rev (seq 0 8).

Definition hexdigest (s : state) : string :=
  string_of_list_ascii
    (hex_word (ha s) ++ hex_word (hb s) ++ hex_word (hc s)
       ++ hex_word (hd s) ++ hex_word (he s)).

(** *** [get_non_provider_id] *)

Definition get_non_provider_id (name : pystr) : status string :=
  match encode_utf8 name with
  | Some bytes => Returned (hexdigest (sha1 bytes))
  | None => Raised UnicodeEncodeError
  end.

(** Code points of a string literal whose characters are all ASCII. *)
Definition str (s : string) : pystr :=
  (fun c => Z.of_nat (nat_of_ascii c)) <$> list_ascii_of_string s.

Definition is_hex_char (c : ascii) : bool :=
  bool_decide (c ∈ list_ascii_of_string "0123456789abcdef").

End Hasher.

(** ** The event loop *)
Module Asyncio.

Local Open Scope nat_scope.

(** Tasks are identified by their rank in creation order. *)
Abbreviation task_id := nat (only parsing).

Section EventLoop.
Context {Entity Kw V : Type}.

(** How a coroutine ends: with a value, or with an exception. *)
Inductive outcome : Type :=
| Success (v : V)
| Failure (x : exn).

(** A coroutine as the loop sees it: each time it is resumed it either
    finishes, or suspends again at an [await] and goes on as [k] the next
    time round. *)
Inductive coroutine : Type :=
| Finish (o : outcome)
| Await (k : coroutine).

Fixpoint outcome_of (c : coroutine) : outcome :=
  match c with
  | Finish o => o
  | Await k => outcome_of k
  end.

(** A coroutine function: called on an entity and keyword arguments, it
    gives a coroutine object; nothing of its body has run yet. *)
Definition operation : Type := Entity -> Kw -> coroutine.

Inductive task_state : Type :=
| Pending (c : coroutine)
| Finished (o : outcome).

(** The loop's tasks, by identifier in creation order; the identifiers of
    the finished ones, in the order they finished; and the calls made to
    coroutine functions so far. *)
Record world : Type := World {
  tasks : list task_state;
  completed : list task_id;
  invoked : list (operation * Entity)
}.

(** Which task the loop resumes next is decided outside the program (by
    the threads and sockets the tasks wait on): it is given as a schedule. *)
Definition schedule := list task_id.

Definition M (A : Type) : Type :=
  world -> schedule -> status A * world * schedule.

Definition ret {A} (a : A) : M A := fun w s => (Returned a, w, s).
Definition raise {A} (x : exn) : M A := fun w s => (Raised x, w, s).
Definition bind {A B} (m : M A) (k : A -> M B) : M B := fun w s =>
  match m w s with
  | (Returned a, w', s') => k a w' s'
  | (Raised x, w', s') => (Raised x, w', s')
  | (Blocked, w', s') => (Blocked, w', s')
  end.

(** One turn of the loop on task [t]. *)
Definition resume (t : task_id) (w : world) : world :=
  match tasks w !! t with
  | Some (Pending (Await k)) =>
      World (<[t := Pending k]> (tasks w)) (completed w) (invoked w)
  | Some (Pending (Finish o)) =>
      World (<[t := Finished o]> (tasks w)) (completed w ++ [t]) (invoked w)
  | Some (Finished _) | None => w
  end.

Definition run_sched (s : schedule) (w : world) : world :=
  foldl (fun w t => resume t w) w s.

(** The caller is suspended until [ready] holds of the loop.  The caller
    is resumed here on the very turn on which [ready] comes to hold; asyncio
    resumes it an iteration or two of the loop later, other tasks running
    meanwhile.  What is stated of a call is therefore its status and what
    holds of the loop from its end onwards, not the exact turn of its end. *)
Fixpoint run_until (ready : world -> bool) (w : world) (s : schedule)
  : status unit * world * schedule :=
  if ready w then (Returned tt, w, s)
  else match s with
       | [] => (Blocked, w, [])
       | t :: s' => run_until ready (resume t w) s'
       end.

(** [f(entity, **kwargs)] for a coroutine function [f]. *)
Definition call (f : operation) (entity : Entity) (kwargs : Kw) : M coroutine :=
  fun w s =>
    (Returned (f entity kwargs),
     World (tasks w) (completed w) (invoked w ++ [(f, entity)]), s).

(** [asyncio.ensure_future(coro)]: a new task, not yet started. *)
Definition ensure_future (c : coroutine) : M task_id := fun w s =>
  (Returned (length (tasks w)),
   World (tasks w ++ [Pending c]) (completed w) (invoked w), s).

Definition is_done (w : world) (t : task_id) : bool :=
  match tasks w !! t with
  | Some (Finished _) => true
  | _ => false
  end.

(** [await asyncio.wait(fs)]: an empty set is refused; otherwise the caller
    is suspended until every member is done, whatever its outcome, and gets
    the sets of done and of pending tasks. *)
Definition wait (fs : gset task_id) : M (gset task_id * gset task_id) :=
  if decide (fs = ∅) then raise ValueError
  else bind (run_until (fun w => forallb (is_done w) (elements fs)))
            (fun _ => ret (fs, ∅)).

(** The queue that [as_completed] fills: the members of [fs] that are
    done, first finished first. *)
Definition done_queue (fs : gset task_id) (w : world) : list task_id :=
  filter (.∈ fs) (completed w).

(** [f.result()] *)
Definition task_result (t : task_id) : M V := fun w s =>
  match tasks w !! t with
  | Some (Finished (Success v)) => (Returned v, w, s)
  | Some (Finished (Failure x)) => (Raised x, w, s)
  | _ => (Blocked, w, s)
  end.

(** The [i]-th awaitable that [as_completed] yields: it waits for the
    [i]-th item of the queue and gives its result, or raises its
    exception. *)
Definition wait_for_one (fs : gset task_id) (i : nat) : M V :=
  bind (run_until (fun w => i <? length (done_queue fs w)))
       (fun _ => fun w s =>
          match done_queue fs w !! i with
          | Some t => task_result t w s
          | None => (Blocked, w, s)
          end).

(** [asyncio.as_completed(fs)] yields as many awaitables as [fs] has
    members. *)
Definition as_completed (fs : gset task_id) : list (M V) :=
  wait_for_one fs <$> seq 0 (size fs).

(** [{body(x) for x in xs}], the bodies run in order. *)
Fixpoint set_for {A} (xs : list A) (body : A -> M (gset task_id))
  : M (gset task_id) :=
  match xs with
  | [] => ret ∅
  | x :: xs' =>
      bind (body x) (fun ts => bind (set_for xs' body) (fun ts' => ret (ts ∪ ts')))
  end.

End EventLoop.

Arguments outcome : clear implicits.
Arguments coroutine : clear implicits.
Arguments task_state : clear implicits.
Arguments operation : clear implicits.
Arguments world : clear implicits.
Arguments M : clear implicits.

Module Notations.
Notation "x <- m ;; k" := (bind m (fun x => k))
  (at level 100, m at next level, right associativity).
End Notations.

End Asyncio.

(** ** [ScoutSuite/providers/utils.py] *)
Module Utils.
Import Asyncio Asyncio.Notations.

Local Open Scope nat_scope.

Section Concurrency.
Context {Entity Kw V : Type}.

Abbreviation operation := (operation Entity Kw V).
Abbreviation M := (M Entity Kw V).

(** [run_concurrently(func)]: [func] is handed to the loop's thread pool and
    the future that will carry what it returns or raises is given back at
    once.  The turn of the loop on that future is the moment the worker
    thread is through. *)
Definition run_concurrently (func : unit -> outcome V) : M task_id :=
  ensure_future (Finish (func tt)).

(** [await fut] *)
Definition await (fut : task_id) : M V :=
  _ <- run_until (fun w => is_done w fut) ;;
  task_result fut.

Definition get_and_set_concurrently
    (get_and_set_funcs : list operation) (entities : list Entity)
    (kwargs : Kw) : M unit :=
  if length entities =? 0 then ret tt
  else
    tasks <- set_for entities (fun entity =>
              set_for get_and_set_funcs (fun get_and_set_func =>
                c <- call get_and_set_func entity kwargs ;;
                t <- ensure_future c ;;
                ret {[ t ]})) ;;
    _ <- wait tasks ;;
    ret tt.

(** The body of [for task in ...: result = await task;
    results.append(result)]. *)
Fixpoint collect (awaitables : list (M V)) (results : list V) : M (list V) :=
  match awaitables with
  | [] => ret results
  | task :: rest =>
      result <- task ;;
      collect rest (results ++ [result])
  end.

Definition map_concurrently
    (coro : operation) (entities : list Entity) (kwargs : Kw) : M (list V) :=
  if length entities =? 0 then ret []
  else
    tasks <- set_for entities (fun entity =>
              c <- call coro entity kwargs ;;
              t <- ensure_future c ;;
              ret {[ t ]}) ;;
    results <- collect (as_completed tasks) [] ;;
    ret results.

End Concurrency.
End Utils.

(** ** [ScoutSuite/providers/gcp/facade/cloudsql.py] *)
Module CloudSQL.
Import Asyncio Asyncio.Notations Utils.

Local Open Scope nat_scope.

Section Facade.
Context {Entity Kw Item Request : Type}.

(** A page response: the item collections it carries, by field name, and
    its continuation token if there is one. *)
Record response : Type := Response {
  fields : gmap string (list Item);
  next_token : option string
}.

Abbreviation M := (M Entity Kw response).

(** A resource group of the remote client ([backupRuns()], [instances()],
    [users()]): [list] with its keyword arguments builds the first request and
    [list_next(previous_request, previous_response)] the following one, or
    [None] after the last page. *)
Record resources_group : Type := ResourcesGroup {
  list_request : gmap string string -> Request;
  list_next : Request -> response -> option Request
}.

(** The client that [_get_client()] gives, with [request.execute()], the
    blocking call that returns the response or raises. *)
Record client : Type := Client {
  backupRuns : resources_group;
  instances : resources_group;
  users : resources_group;
  execute : Request -> outcome response
}.

Variable cloudsql_client : client.

(** [response.get(field, [])] *)
Definition get_items (field : string) (r : response) : list Item :=
  default [] (fields r !! field).

(** Modelled from the spec: [GCPFacadeUtils.get_all]
    ([ScoutSuite/providers/gcp/facade/utils.py]) is not among the sources.
    The spec's page walker [collect_all(field, first_request, continuation)]
    executes the request through the offloader and awaits the response,
    extracts [response[field]] (nothing if the field is absent), appends it to
    the accumulator, and derives the next request with [continuation]; it
    stops when that yields no request.  A failed fetch is raised to the
    caller and what was accumulated is dropped. *)
Fixpoint walk (fuel : nat) (field : string)
    (continuation : Request -> response -> option Request)
    (resources : list Item) (request : Request) : M (list Item) :=
  match fuel with
  | O => fun w s => (Blocked, w, s)
  | S fuel' =>
      fut <- run_concurrently (fun _ => execute cloudsql_client request) ;;
      response <- await fut ;;
      let resources := resources ++ get_items field response in
      match continuation request response with
      | None => ret resources
      | Some next => walk fuel' field continuation resources next
      end
  end.

(** Every fetch takes a turn of the loop, so a walk that has not ended after
    as many pages as the schedule has turns is suspended. *)
Definition get_all (field : string) (request : Request)
    (group : resources_group) : M (list Item) :=
  fun w s => walk (S (length s)) field (list_next group) [] request w s.

Definition get_backups (project_id instance_name : string) : M (list Item) :=
  let backups_group := backupRuns cloudsql_client in
  let request :=
    list_request backups_group
      {[ "project" := project_id; "instance" := instance_name ]} in
  get_all "items" request backups_group.

Definition get_database_instances (project_id : string) : M (list Item) :=
  let instances_group := instances cloudsql_client in
  let request := list_request instances_group {[ "project" := project_id ]} in
  get_all "items" request instances_group.

Definition get_users (project_id instance_name : string) : M (list Item) :=
  fut <- run_concurrently (fun _ =>
           execute cloudsql_client
             (list_request (users cloudsql_client)
                {[ "project" := project_id; "instance" := instance_name ]})) ;;
  response <- await fut ;;
  ret (get_items "items" response).

End Facade.

Arguments response : clear implicits.
Arguments resources_group : clear implicits.
Arguments client : clear implicits.

End CloudSQL.

(** ** Sample operations and loops, for the examples below *)
Module Samples.
Import Asyncio.

Local Open Scope nat_scope.

(** Entities are numbered; operations set attributes and return [None]. *)
Definition describe : operation nat unit unit :=
  fun _ _ => Await (Finish (Success tt)).

Definition attributes : operation nat unit unit :=
  fun _ _ => Finish (Success tt).

(** Fails on entity 2, after one suspension. *)
Definition policy : operation nat unit unit :=
  fun entity _ =>
    if entity =? 2 then Await (Finish (Failure (OtherError "AccessDenied")))
    else Await (Finish (Success tt)).

(** Takes [entity] suspensions to give ten times [entity]. *)
Fixpoint slow (n : nat) (c : coroutine nat) : coroutine nat :=
  match n with
  | O => c
  | S n' => Await (slow n' c)
  end.

Definition describe_cluster : operation nat unit nat :=
  fun entity _ => slow entity (Finish (Success (10 * entity))).

(** As [describe_cluster], but fails on entity 2 at once. *)
Definition describe_cluster_but_2 : operation nat unit nat :=
  fun entity _ =>
    if entity =? 2 then Finish (Failure (OtherError "NotFound"))
    else slow entity (Finish (Success (10 * entity))).

Definition fresh {V} : world nat unit V := World [] [] [].

(** Every task in turn, [rounds] times over. *)
Definition round_robin (n rounds : nat) : schedule :=
  mjoin (replicate rounds (seq 0 n)).

End Samples.

(** ** A sample Cloud SQL client, for the examples below *)
Module SampleClient.
Import Asyncio CloudSQL.

Local Open Scope string_scope.

(** A request names the resource group and carries the page token, if any. *)
Definition request : Type := string * option string.

Definition group (name : string) : resources_group nat request :=
  ResourcesGroup
    (fun _ => (name, None))
    (fun prev resp =>
       match next_token resp with
       | Some token => Some (prev.1, Some token)
       | None => None
       end).

(** Two pages of backups: [{items: [1, 2], next: "T1"}] and
    [{items: [3], next: null}]. *)
Definition first_page : response nat :=
  Response {[ "items" := [1; 2]%nat ]} (Some "T1").
Definition last_page : response nat :=
  Response {[ "items" := [3]%nat ]} None.

(** An instance with no users: the response has no ["items"] key. *)
Definition no_users : response nat := Response {[ "kind" := [] ]} None.

Definition serve (req : request) : outcome (response nat) :=
  match req with
  | ("backupRuns", None) => Success first_page
  | ("backupRuns", Some "T1") => Success last_page
  | ("users", None) => Success no_users
  | _ => Failure (OtherError "HttpError 404")
  end.

Definition sample_client : client nat request :=
  Client (group "backupRuns") (group "instances") (group "users") serve.

Definition fresh : world unit unit (response nat) := World [] [] [].

End SampleClient.

(** * Properties *)

(** ** The identifier hasher *)
Module HasherFacts.
Import Hasher.

Local Open Scope Z_scope.

(** A code point that [encode('utf-8')] accepts: inside the code space and
    not a surrogate. *)
Definition encodable (c : codepoint) : Prop :=
  is_codepoint c = true /\ is_surrogate c = false.

Lemma encode_char_encodable (c : codepoint) :
  encodable c -> exists bs, encode_char c = Some bs.
Proof.
  intros [Hc Hs]. unfold encode_char. rewrite Hc, Hs. simpl.
  repeat case_match; eauto.
Qed.

Lemma encode_utf8_encodable (name : pystr) :
  Forall encodable name -> exists bytes, encode_utf8 name = Some bytes.
Proof.
  induction 1 as [|c name Hc _ [rest IH]]; simpl; [by eexists|].
  destruct (encode_char_encodable c Hc) as [bs ->]. rewrite IH. by eexists.
Qed.

Lemma encode_utf8_surrogate (name : pystr) :
  Exists (fun c => is_surrogate c = true) name -> encode_utf8 name = None.
Proof.
  induction 1 as [c name Hs|c name _ IH]; simpl.
  - assert (encode_char c = None) as ->; [|done].
    unfold encode_char, is_surrogate, is_codepoint in *.
    repeat case_match; try done; lia.
  - rewrite IH. by case_match.
Qed.

(** The encoder gives bytes. *)
Definition is_byte (b : Z) : Prop := 0 <= b < 256.

Lemma lor_is_byte (a b : Z) : is_byte a -> is_byte b -> is_byte (Z.lor a b).
Proof.
  unfold is_byte. intros Ha Hb. split; [apply Z.lor_nonneg; lia|].
  destruct (Z.eq_dec (Z.lor a b) 0) as [->|Hne]; [lia|].
  assert (0 < Z.lor a b) as Hpos
    by (pose proof (proj2 (Z.lor_nonneg a b)); lia).
  change 256 with (2 ^ 8). apply Z.log2_lt_pow2; [done|].
  rewrite Z.log2_lor by lia. apply Z.max_lub_lt.
  - destruct (Z.eq_dec a 0) as [->|?]; [done|]. apply Z.log2_lt_pow2; lia.
  - destruct (Z.eq_dec b 0) as [->|?]; [done|]. apply Z.log2_lt_pow2; lia.
Qed.

Lemma continuation_is_byte (x : Z) : is_byte (Z.lor 0x80 (Z.land x 0x3F)).
Proof.
  apply lor_is_byte; [unfold is_byte; lia|].
  change 0x3F with (Z.ones 6). rewrite Z.land_ones by lia.
  pose proof (Z.mod_pos_bound x (2 ^ 6)). unfold is_byte. lia.
Qed.

Lemma leading_is_byte (mark c shift bound : Z) :
  is_byte mark -> 0 <= shift -> 0 <= c < bound * 2 ^ shift -> 0 < bound <= 256 ->
  is_byte (Z.lor mark (Z.shiftr c shift)).
Proof.
  intros Hm Hs Hc Hb. apply lor_is_byte; [done|].
  rewrite Z.shiftr_div_pow2 by done. unfold is_byte. split.
  - apply Z.div_pos; lia.
  - apply Z.lt_le_trans with bound; [|lia].
    apply Z.div_lt_upper_bound; lia.
Qed.

Lemma encode_char_bytes (c : codepoint) (bs : list Z) :
  encode_char c = Some bs -> Forall is_byte bs.
Proof.
  unfold encode_char, is_codepoint, is_surrogate.
  repeat case_match; intros [= <-];
    repeat apply Forall_cons_2; try apply Forall_nil_2;
    try apply continuation_is_byte.
  - unfold is_byte. lia.
  - apply (leading_is_byte 0xC0 c 6 32); unfold is_byte; lia.
  - apply (leading_is_byte 0xE0 c 12 16); unfold is_byte; lia.
  - apply (leading_is_byte 0xF0 c 18 8); unfold is_byte; lia.
Qed.

Lemma encode_utf8_bytes (name : pystr) (bytes : list Z) :
  encode_utf8 name = Some bytes -> Forall is_byte bytes.
Proof.
  revert bytes. induction name as [|c name IH]; intros bytes; simpl.
  - intros [= <-]. constructor.
  - destruct (encode_char c) as [bs|] eqn:Hc; [|done].
    destruct (encode_utf8 name) as [rest|]; [|done].
    intros [= <-]. apply Forall_app. eauto using encode_char_bytes.
Qed.

Lemma length_string_of_list_ascii (l : list ascii) :
  String.length (string_of_list_ascii l) = length l.
Proof. induction l; simpl; congruence. Qed.

Lemma length_hex_word (x : Z) : length (hex_word x) = 8%nat.
Proof. reflexivity. Qed.

Lemma length_hexdigest (s : state) : String.length (hexdigest s) = 40%nat.
Proof.
  unfold hexdigest. rewrite length_string_of_list_ascii, !length_app,
    !length_hex_word. reflexivity.
Qed.

Lemma hex_digit_is_hex (n : Z) : is_hex_char (hex_digit n) = true.
Proof.
  unfold hex_digit.
  assert (Z.to_nat (n mod 16) < 16)%nat as Hlt
    by (pose proof (Z.mod_pos_bound n 16); lia).
  generalize dependent (Z.to_nat (n mod 16)). intros k Hlt.
  do 16 (destruct k as [|k]; [reflexivity|]). lia.
Qed.

Lemma hexdigest_is_hex (s : state) :
  Forall (fun c => is_hex_char c = true) (list_ascii_of_string (hexdigest s)).
Proof.
  unfold hexdigest. rewrite list_ascii_of_string_of_list_ascii.
  rewrite !Forall_app. unfold hex_word.
  repeat split; apply Forall_fmap, Forall_forall; intros; apply hex_digit_is_hex.
Qed.

(** The digests that [hashlib.sha1] gives for the same names. *)
Example sha1_empty :
  get_non_provider_id (str "")
  = Returned "da39a3ee5e6b4b0d3255bfef95601890afd80709"%string.
Proof. vm_compute. reflexivity. Qed.

Example sha1_abc :
  get_non_provider_id (str "abc")
  = Returned "a9993e364706816aba3e25717850c26c9cd0d89d"%string.
Proof. vm_compute. reflexivity. Qed.

Example sha1_dotted_name :
  get_non_provider_id (str "my.db-instance.prod")
  = Returned "2553f7e40e7c96bd30e6b95a20775a401eb47722"%string.
Proof. vm_compute. reflexivity. Qed.

Example sha1_two_blocks :
  get_non_provider_id
    (str "abcdbcdecdefdefgefghfghighijhijkijkljklmklmnlmnomnopnopq")
  = Returned "84983e441c3bd26ebaae4aa1f95129e5e54670f1"%string.
Proof. vm_compute. reflexivity. Qed.

Example sha1_non_ascii :
  get_non_provider_id [0xE9; 0x20AC; 0x1F600]
  = Returned "c18ebd62bacc0aac83670707d9204486ec605731"%string.
Proof. vm_compute. reflexivity. Qed.

(** C5, as stated, does not hold: the claim gives [get_non_provider_id] no
    failure mode on any string, but a [str] may hold a lone surrogate, which
    [name.encode('utf-8')] refuses. *)
Lemma get_non_provider_id_lone_surrogate :
  is_codepoint 0xD800 = true /\
  get_non_provider_id [0xD800] = Raised UnicodeEncodeError /\
  ~ (exists digest, get_non_provider_id [0xD800] = Returned digest).
Proof.
  split; [reflexivity|]. split; [reflexivity|].
  intros [digest H]. discriminate H.
Qed.

(** C5, amended: on every name that has no lone surrogate (dots and all other
    characters included), [get_non_provider_id] returns the SHA-1 hex digest
    of the UTF-8 encoding of the name, which is 40 characters long and made
    of lower-case hexadecimal digits only.  The result is a function of the
    name alone: there is no state and no input but the name. *)
Theorem get_non_provider_id_digest (name : pystr) :
  Forall encodable name ->
  exists bytes,
    encode_utf8 name = Some bytes /\
    Forall is_byte bytes /\
    get_non_provider_id name = Returned (hexdigest (sha1 bytes)) /\
    String.length (hexdigest (sha1 bytes)) = 40%nat /\
    Forall (fun c => is_hex_char c = true)
           (list_ascii_of_string (hexdigest (sha1 bytes))).
Proof.
  intros Hname. destruct (encode_utf8_encodable name Hname) as [bytes Hb].
  exists bytes. unfold get_non_provider_id. rewrite Hb.
  eauto 6 using length_hexdigest, hexdigest_is_hex, encode_utf8_bytes.
Qed.

Lemma get_non_provider_id_digest_witness :
  Forall encodable (str "my.db-instance.prod") /\
  exists bytes,
    encode_utf8 (str "my.db-instance.prod") = Some bytes /\
    Forall is_byte bytes /\
    get_non_provider_id (str "my.db-instance.prod")
    = Returned (hexdigest (sha1 bytes)) /\
    String.length (hexdigest (sha1 bytes)) = 40%nat /\
    Forall (fun c => is_hex_char c = true)
           (list_ascii_of_string (hexdigest (sha1 bytes))).
Proof.
  assert (Forall encodable (str "my.db-instance.prod")) as H.
  { repeat (constructor; [split; reflexivity|]). constructor. }
  split; [exact H|]. exact (get_non_provider_id_digest _ H).
Defined.

(** A name with a lone surrogate is refused, wherever the surrogate is. *)
Lemma get_non_provider_id_surrogate (name : pystr) :
  Exists (fun c => is_surrogate c = true) name ->
  get_non_provider_id name = Raised UnicodeEncodeError.
Proof.
  intros H. unfold get_non_provider_id. by rewrite encode_utf8_surrogate.
Qed.

(** *** Collisions *)

(** The words of a digest state are 32-bit words. *)
Definition in_range (s : state) : Prop :=
  0 <= ha s < 2 ^ 32 /\ 0 <= hb s < 2 ^ 32 /\ 0 <= hc s < 2 ^ 32 /\
  0 <= hd s < 2 ^ 32 /\ 0 <= he s < 2 ^ 32.

Lemma add32_range (x y : Z) : 0 <= add32 x y < 2 ^ 32.
Proof. unfold add32, w32. apply Z.mod_pos_bound. lia. Qed.

Lemma compress_in_range (h : state) (block : list Z) :
  in_range (compress h block).
Proof.
  unfold compress, in_range. cbn [ha hb hc hd he].
  repeat (split; [apply add32_range|]). apply add32_range.
Qed.

Lemma sha1_in_range (msg : list Z) : in_range (sha1 msg).
Proof.
  unfold sha1. generalize (chunks (length (pad msg)) 64 (pad msg)).
  assert (in_range initial) as Hinit by (unfold in_range; simpl; lia).
  generalize dependent initial. intros h Hh blocks. revert h Hh.
  induction blocks as [|b blocks IH]; intros h Hh; cbn [foldl]; [done|].
  apply IH, compress_in_range.
Qed.

(** A state as one 160-bit number. *)
Definition state_number (s : state) : Z :=
  ha s + 2 ^ 32 * hb s + 2 ^ 64 * hc s + 2 ^ 96 * hd s + 2 ^ 128 * he s.

Lemma state_number_range (s : state) :
  in_range s -> 0 <= state_number s < 2 ^ 160.
Proof. unfold in_range, state_number. lia. Qed.

Lemma state_number_inj (s1 s2 : state) :
  in_range s1 -> in_range s2 -> state_number s1 = state_number s2 -> s1 = s2.
Proof.
  destruct s1, s2. unfold in_range, state_number. simpl.
  intros ? ? ?. f_equal; lia.
Qed.

(** The name made of [n] letters [a]. *)
Definition letters (n : nat) : pystr := replicate n 0x61.

Lemma letters_encodable (n : nat) : Forall encodable (letters n).
Proof. apply Forall_replicate. split; reflexivity. Qed.

Lemma letters_encode (n : nat) : encode_utf8 (letters n) = Some (letters n).
Proof.
  unfold letters. induction n as [|n IH]; [done|].
  cbn [replicate encode_utf8]. rewrite IH. reflexivity.
Qed.

(** X2: there are more names than digests: [get_non_provider_id] cannot
    tell all names apart, whatever is done about collisions made on
    purpose. *)
Theorem get_non_provider_id_not_injective :
  ~ (forall a b : pystr,
       Forall encodable a -> Forall encodable b -> a <> b ->
       get_non_provider_id a <> get_non_provider_id b).
Proof.
  intros Hinj.
  set (key := fun n : nat => Z.to_nat (state_number (sha1 (letters n)))).
  remember (Z.to_nat (2 ^ 160)) as bound eqn:Hbound.
  assert (forall n, (key n < bound)%nat) as Hkey.
  { intros n. unfold key. subst bound.
    pose proof (state_number_range _ (sha1_in_range (letters n))).
    apply Z2Nat.inj_lt; lia. }
  assert (forall i j, key i = key j -> i = j) as Hkey_inj.
  { intros i j Hij. destruct (decide (i = j)) as [Heq|Hne]; [exact Heq|].
    exfalso.
    apply (Hinj (letters i) (letters j) (letters_encodable i)
             (letters_encodable j)).
    - intros Heq. apply Hne.
      apply (f_equal length) in Heq. unfold letters in Heq.
      rewrite !length_replicate in Heq. exact Heq.
    - unfold get_non_provider_id. rewrite !letters_encode.
      apply (f_equal (fun st => Returned (hexdigest st))).
      apply state_number_inj; [apply sha1_in_range..|].
      unfold key in Hij. apply Z2Nat.inj in Hij; [exact Hij|..];
        apply state_number_range, sha1_in_range. }
  clear Hbound Hinj.
  assert (NoDup (key <$> seq 0 (S bound))) as Hnd.
  { apply NoDup_fmap_2_strong; [|apply NoDup_seq].
    intros i j _ _. apply Hkey_inj. }
  assert (key <$> seq 0 (S bound) ⊆+ seq 0 bound) as Hsub.
  { apply NoDup_submseteq; [done|]. intros k (n & -> & _)%list_elem_of_fmap.
    apply elem_of_seq. specialize (Hkey n). lia. }
  apply submseteq_length in Hsub.
  rewrite length_fmap, !length_seq in Hsub. lia.
Qed.

End HasherFacts.

(** ** The event loop *)
Module AsyncioFacts.
Import Asyncio Asyncio.Notations.

Local Open Scope nat_scope.

Section Loop.
Context {Entity Kw V : Type}.
Implicit Types (w : world Entity Kw V) (s pre post : schedule).
Implicit Types (t : task_id) (fs : gset task_id) (o : outcome V).

(** The three components of an observed run. *)
Definition status_of {A} (run : status A * world Entity Kw V * schedule)
  : status A := run.1.1.
Definition world_after {A} (run : status A * world Entity Kw V * schedule)
  : world Entity Kw V := run.1.2.
Definition schedule_left {A} (run : status A * world Entity Kw V * schedule)
  : schedule := run.2.

(** How a task ends, whether it has got there yet or not. *)
Definition eventual (ts : task_state V) : outcome V :=
  match ts with
  | Pending c => outcome_of c
  | Finished o => o
  end.

(** The log of finished tasks is faithful: it lists each finished task
    once, and nothing else. *)
Definition wf w : Prop :=
  NoDup (completed w) /\ forall t, t ∈ completed w <-> is_done w t = true.

Lemma is_done_Finished w t :
  is_done w t = true <-> exists o, tasks w !! t = Some (Finished o).
Proof.
  unfold is_done. destruct (tasks w !! t) as [[c|o]|]; split;
    try discriminate; try (intros [? [=]]); eauto.
Qed.

Lemma wf_empty : wf (World [] [] []).
Proof.
  split; [constructor|]. intros t. rewrite is_done_Finished. simpl.
  split; [by intros ?%elem_of_nil|]. by intros [o ?].
Qed.

(** *** One turn of the loop *)

Inductive turn w t : world Entity Kw V -> Prop :=
| turn_await k :
    tasks w !! t = Some (Pending (Await k)) ->
    turn w t (World (<[t := Pending k]> (tasks w)) (completed w) (invoked w))
| turn_finish o :
    tasks w !! t = Some (Pending (Finish o)) ->
    turn w t (World (<[t := Finished o]> (tasks w)) (completed w ++ [t])
                    (invoked w))
| turn_idle :
    (forall c, tasks w !! t <> Some (Pending c)) ->
    turn w t w.

Lemma resume_turn w t : turn w t (resume t w).
Proof.
  unfold resume. destruct (tasks w !! t) as [[[o|k]|o]|] eqn:E.
  - by apply turn_finish.
  - by apply turn_await.
  - apply turn_idle. congruence.
  - apply turn_idle. congruence.
Qed.

Lemma resume_length w t : length (tasks (resume t w)) = length (tasks w).
Proof. destruct (resume_turn w t); simpl; by rewrite ?length_insert. Qed.

Lemma resume_invoked w t : invoked (resume t w) = invoked w.
Proof. by destruct (resume_turn w t). Qed.

Lemma resume_other w t t' :
  t <> t' -> tasks (resume t w) !! t' = tasks w !! t'.
Proof.
  intros Hne. destruct (resume_turn w t); simpl;
    by rewrite ?list_lookup_insert_ne.
Qed.

Lemma resume_eventual w t t' :
  eventual <$> tasks (resume t w) !! t' = eventual <$> tasks w !! t'.
Proof.
  destruct (decide (t = t')) as [<-|Hne]; [|by rewrite resume_other].
  destruct (resume_turn w t) as [k E|o E|]; simpl; [| |done].
  - rewrite list_lookup_insert_eq by eauto using lookup_lt_Some.
    by rewrite E.
  - rewrite list_lookup_insert_eq by eauto using lookup_lt_Some.
    by rewrite E.
Qed.

Lemma resume_finished w t t' o :
  tasks w !! t' = Some (Finished o) ->
  tasks (resume t w) !! t' = Some (Finished o).
Proof.
  intros E. destruct (decide (t = t')) as [<-|Hne]; [|by rewrite resume_other].
  destruct (resume_turn w t) as [k E'|o' E'|]; simpl; congruence.
Qed.

Lemma resume_Finish w t o :
  tasks w !! t = Some (Pending (Finish o)) ->
  tasks (resume t w) !! t = Some (Finished o).
Proof.
  intros E. unfold resume. rewrite E. simpl.
  apply list_lookup_insert_eq. eauto using lookup_lt_Some.
Qed.

Lemma resume_is_done w t t' :
  is_done w t' = true -> is_done (resume t w) t' = true.
Proof.
  rewrite !is_done_Finished. intros [o E]. eauto using resume_finished.
Qed.

Lemma resume_completed w t :
  completed w `prefix_of` completed (resume t w).
Proof.
  destruct (resume_turn w t); simpl; [done| |done]. by apply prefix_app_r.
Qed.

Lemma resume_wf w t : wf w -> wf (resume t w).
Proof.
  intros [Hnd Hlog]. destruct (resume_turn w t) as [k E|o E|]; [| |done].
  - split; [done|]. intros t'. simpl. rewrite Hlog, !is_done_Finished. simpl.
    destruct (decide (t = t')) as [<-|Hne].
    + rewrite list_lookup_insert_eq by eauto using lookup_lt_Some.
      rewrite E. split; intros [o [=]].
    + by rewrite list_lookup_insert_ne.
  - assert (t ∉ completed w) as Hfresh.
    { rewrite Hlog, is_done_Finished, E. by intros [o' [=]]. }
    split; simpl.
    + apply NoDup_app. split; [done|]. split; [|apply NoDup_singleton].
      intros t' Ht' ->%list_elem_of_singleton. done.
    + intros t'. rewrite elem_of_app, list_elem_of_singleton, Hlog,
        !is_done_Finished. simpl.
      destruct (decide (t = t')) as [<-|Hne].
      * rewrite list_lookup_insert_eq by eauto using lookup_lt_Some.
        split; eauto.
      * rewrite list_lookup_insert_ne by done. split; [|by eauto].
        intros [?| ->]; done.
Qed.

(** *** Several turns *)

Lemma run_sched_app pre post w :
  run_sched (pre ++ post) w = run_sched post (run_sched pre w).
Proof. apply foldl_app. Qed.

Lemma run_sched_length s w :
  length (tasks (run_sched s w)) = length (tasks w).
Proof.
  revert w. induction s as [|t s IH]; intros w; simpl; [done|].
  by rewrite IH, resume_length.
Qed.

Lemma run_sched_invoked s w : invoked (run_sched s w) = invoked w.
Proof.
  revert w. induction s as [|t s IH]; intros w; simpl; [done|].
  by rewrite IH, resume_invoked.
Qed.

Lemma run_sched_eventual s w t :
  eventual <$> tasks (run_sched s w) !! t = eventual <$> tasks w !! t.
Proof.
  revert w. induction s as [|t' s IH]; intros w; simpl; [done|].
  by rewrite IH, resume_eventual.
Qed.

Lemma run_sched_finished s w t o :
  tasks w !! t = Some (Finished o) ->
  tasks (run_sched s w) !! t = Some (Finished o).
Proof.
  revert w. induction s as [|t' s IH]; intros w E; simpl; [done|].
  eauto using resume_finished.
Qed.

Lemma run_sched_completed s w :
  completed w `prefix_of` completed (run_sched s w).
Proof.
  revert w. induction s as [|t s IH]; intros w; simpl; [done|].
  etrans; [apply resume_completed|apply IH].
Qed.

Lemma run_sched_wf s w : wf w -> wf (run_sched s w).
Proof.
  revert w. induction s as [|t s IH]; intros w Hwf; simpl; [done|].
  eauto using resume_wf.
Qed.

(** *** Waiting for a condition *)

(** A condition that no turn of the loop undoes. *)
Definition stable (ready : world Entity Kw V -> bool) : Prop :=
  forall w t, ready w = true -> ready (resume t w) = true.

Lemma stable_run_sched ready s w :
  stable ready -> ready w = true -> ready (run_sched s w) = true.
Proof.
  intros Hst. revert w. induction s as [|t s IH]; intros w Hw; simpl; eauto.
Qed.

(** [run_until] stops after a prefix of the schedule, either because the
    condition holds there or because the schedule is used up. *)
Lemma run_until_inv ready w s :
  exists pre,
    s = pre ++ schedule_left (run_until ready w s) /\
    world_after (run_until ready w s) = run_sched pre w /\
    (status_of (run_until ready w s) = Returned tt /\
     ready (run_sched pre w) = true \/
     status_of (run_until ready w s) = Blocked /\
     ready (run_sched pre w) = false /\
     schedule_left (run_until ready w s) = []).
Proof.
  revert w. induction s as [|t s IH]; intros w; simpl.
  - exists []. destruct (ready w) eqn:E; simpl; rewrite ?E; auto 10.
  - destruct (ready w) eqn:E.
    + exists []. simpl. auto 10.
    + destruct (IH (resume t w)) as (pre & Hs & Hw & Hr).
      exists (t :: pre). simpl. split; [congruence|]. auto.
Qed.

(** If the condition comes to hold along [pre], the wait ends inside
    [pre]. *)
Lemma run_until_within ready pre w :
  stable ready -> ready (run_sched pre w) = true ->
  exists p1 p2,
    pre = p1 ++ p2 /\ ready (run_sched p1 w) = true /\
    forall post,
      run_until ready w (pre ++ post) = (Returned tt, run_sched p1 w, p2 ++ post).
Proof.
  intros Hst. revert w. induction pre as [|t pre IH]; intros w Hr.
  - exists [], []. simpl in *. split; [done|]. split; [done|].
    intros [|??]; simpl; by rewrite Hr.
  - destruct (ready w) eqn:E.
    + exists [], (t :: pre). split; [done|]. split; [done|].
      intros post. simpl. by rewrite E.
    + destruct (IH (resume t w) Hr) as (p1 & p2 & -> & Hp1 & Hrun).
      exists (t :: p1), p2. split; [done|]. split; [done|].
      intros post. simpl. rewrite E. apply Hrun.
Qed.

(** If the condition first holds right after the turn on [t], the wait
    ends there, and what follows [t] in the schedule is left. *)
Lemma run_until_exact ready pre t post w :
  stable ready ->
  ready (run_sched pre w) = false ->
  ready (resume t (run_sched pre w)) = true ->
  run_until ready w (pre ++ t :: post)
  = (Returned tt, resume t (run_sched pre w), post).
Proof.
  intros Hst. revert w. induction pre as [|t' pre IH]; intros w Hf Ht; simpl in *.
  - rewrite Hf. destruct post; simpl; by rewrite Ht.
  - destruct (ready w) eqn:E; [|by apply IH].
    rewrite (stable_run_sched ready pre (resume t' w)) in Hf; eauto.
    discriminate.
Qed.

Lemma is_done_stable t : stable (fun w => is_done w t).
Proof. intros w t'. apply resume_is_done. Qed.

(** *** [wait] *)

Lemma forallb_elem {A} (f : A -> bool) (l : list A) :
  forallb f l = true <-> forall x, x ∈ l -> f x = true.
Proof.
  rewrite List.forallb_forall. by setoid_rewrite list_elem_of_In.
Qed.

Definition all_done fs w : bool := forallb (is_done w) (elements fs).

Lemma all_done_spec fs w :
  all_done fs w = true <-> forall t, t ∈ fs -> is_done w t = true.
Proof.
  unfold all_done. rewrite forallb_elem. by setoid_rewrite elem_of_elements.
Qed.

Lemma all_done_stable fs : stable (all_done fs).
Proof.
  intros w t. rewrite !all_done_spec. eauto using resume_is_done.
Qed.

Lemma wait_empty w s : wait ∅ w s = (Raised ValueError, w, s).
Proof. unfold wait. by rewrite decide_True. Qed.

(** A wait on a set that is not empty never raises: it ends when every
    member is done, and is suspended exactly as long as one is not. *)
Lemma wait_inv fs w s :
  fs <> ∅ ->
  exists pre,
    s = pre ++ schedule_left (wait fs w s) /\
    world_after (wait fs w s) = run_sched pre w /\
    (status_of (wait fs w s) = Returned (fs, ∅) /\
     all_done fs (run_sched pre w) = true \/
     status_of (wait fs w s) = Blocked /\
     all_done fs (run_sched pre w) = false /\
     schedule_left (wait fs w s) = []).
Proof.
  intros Hne. unfold wait. rewrite decide_False by done. unfold bind.
  destruct (run_until_inv (all_done fs) w s) as (pre & Hs & Hw & Hr).
  exists pre. fold (all_done fs) in *.
  destruct (run_until (all_done fs) w s) as [[r w'] s'].
  unfold status_of, world_after, schedule_left in *; simpl in *.
  destruct Hr as [[-> Hr]|(-> & Hr & ->)]; simpl; auto 10.
Qed.

(** *** The queue of [as_completed] *)

Lemma done_queue_elem fs w t :
  t ∈ done_queue fs w <-> t ∈ fs /\ t ∈ completed w.
Proof. unfold done_queue. by rewrite list_elem_of_filter. Qed.

Lemma done_queue_NoDup fs w : wf w -> NoDup (done_queue fs w).
Proof. intros [Hnd _]. by apply NoDup_filter. Qed.

Lemma done_queue_size fs w : wf w -> length (done_queue fs w) <= size fs.
Proof.
  intros Hwf. rewrite <- (size_list_to_set (C := gset task_id))
    by by apply done_queue_NoDup.
  apply subseteq_size. intros t. rewrite elem_of_list_to_set, done_queue_elem.
  tauto.
Qed.

(** Once every member is done, the queue holds all of them. *)
Lemma done_queue_full fs w :
  wf w -> all_done fs w = true -> done_queue fs w ≡ₚ elements fs.
Proof.
  intros Hwf Hall. apply NoDup_Permutation.
  - by apply done_queue_NoDup.
  - apply NoDup_elements.
  - intros t. rewrite done_queue_elem, elem_of_elements.
    rewrite all_done_spec in Hall. destruct Hwf as [_ Hlog].
    rewrite Hlog. split; [tauto|]. auto.
Qed.

Lemma done_queue_mono fs w s :
  done_queue fs w `prefix_of` done_queue fs (run_sched s w).
Proof.
  destruct (run_sched_completed s w) as [more E]. unfold done_queue.
  rewrite E, filter_app. by apply prefix_app_r.
Qed.

Lemma done_queue_resume fs w t :
  done_queue fs w `prefix_of` done_queue fs (resume t w).
Proof. apply (done_queue_mono fs w [t]). Qed.

(** The turn on which a member of [fs] finishes puts it at the end of the
    queue. *)
Lemma done_queue_finish fs w t o :
  t ∈ fs -> tasks w !! t = Some (Pending (Finish o)) ->
  done_queue fs (resume t w) = done_queue fs w ++ [t] /\
  tasks (resume t w) !! t = Some (Finished o).
Proof.
  intros Ht E. unfold done_queue, resume. rewrite E. simpl.
  rewrite filter_app, filter_cons_True by done. split; [done|].
  apply list_lookup_insert_eq. eauto using lookup_lt_Some.
Qed.

Lemma done_queue_empty w : done_queue ∅ w = [].
Proof.
  unfold done_queue. induction (completed w) as [|t l IH]; [done|].
  by rewrite filter_cons_False by apply not_elem_of_empty.
Qed.

Definition queued fs (i : nat) w : bool := i <? length (done_queue fs w).

Lemma queued_stable fs i : stable (queued fs i).
Proof.
  intros w t. unfold queued. rewrite !Nat.ltb_lt.
  pose proof (prefix_length _ _ (done_queue_resume fs w t)). lia.
Qed.

(** What is in the queue is a finished member of [fs]. *)
Lemma done_queue_lookup fs w i t :
  wf w -> done_queue fs w !! i = Some t ->
  t ∈ fs /\ exists o, tasks w !! t = Some (Finished o).
Proof.
  intros [_ Hlog] Hi. apply list_elem_of_lookup_2 in Hi.
  apply done_queue_elem in Hi as [Hfs Hc]. split; [done|].
  by apply is_done_Finished, Hlog.
Qed.

(** *** A schedule that brings tasks to their end *)

(** Coroutines are finite: each task is a known number of turns away from
    its end. *)
Fixpoint depth (c : coroutine V) : nat :=
  match c with
  | Finish _ => 0
  | Await k => S (depth k)
  end.

Definition turns_left w t : nat :=
  match tasks w !! t with
  | Some (Pending c) => S (depth c)
  | _ => 0
  end.

Fixpoint run_to_end (l : list task_id) w : schedule :=
  match l with
  | [] => []
  | t :: l' =>
      let turns := replicate (turns_left w t) t in
      turns ++ run_to_end l' (run_sched turns w)
  end.

Lemma run_sched_is_done s w t :
  is_done w t = true -> is_done (run_sched s w) t = true.
Proof. apply (stable_run_sched (fun w => is_done w t)), is_done_stable. Qed.

Lemma resume_Await w t k :
  tasks w !! t = Some (Pending (Await k)) ->
  tasks (resume t w) !! t = Some (Pending k).
Proof.
  intros E. unfold resume. rewrite E. simpl.
  apply list_lookup_insert_eq. eauto using lookup_lt_Some.
Qed.

Lemma finish_pending t c : forall w,
  tasks w !! t = Some (Pending c) ->
  is_done (run_sched (replicate (S (depth c)) t) w) t = true.
Proof.
  induction c as [o|k IH]; intros w E; cbn [depth replicate run_sched foldl].
  - apply is_done_Finished. eauto using resume_Finish.
  - apply (IH (resume t w)). by apply resume_Await.
Qed.

Lemma finish_task w t :
  t < length (tasks w) ->
  is_done (run_sched (replicate (turns_left w t) t) w) t = true.
Proof.
  intros [ts E]%lookup_lt_is_Some_2. unfold turns_left. rewrite E.
  destruct ts as [c|o]; [by apply finish_pending|].
  apply is_done_Finished. eauto.
Qed.

Lemma run_to_end_done l : forall w t,
  t ∈ l -> t < length (tasks w) ->
  is_done (run_sched (run_to_end l w) w) t = true.
Proof.
  induction l as [|t' l IH]; intros w t Hin Hlt; [by apply elem_of_nil in Hin|].
  cbn [run_to_end]. rewrite run_sched_app.
  apply elem_of_cons in Hin as [->|Hin].
  - by apply run_sched_is_done, finish_task.
  - apply IH; [done|]. by rewrite run_sched_length.
Qed.

(** Every set of tasks of the loop can be brought to its end. *)
Lemma all_done_run_to_end fs w :
  (forall t, t ∈ fs -> t < length (tasks w)) ->
  all_done fs (run_sched (run_to_end (elements fs) w) w) = true.
Proof.
  intros Hfs. apply all_done_spec. intros t Ht.
  apply run_to_end_done; [by apply elem_of_elements|auto].
Qed.

End Loop.
End AsyncioFacts.

(** ** [get_and_set_concurrently] and [map_concurrently] *)
Module UtilsFacts.
Import Asyncio Asyncio.Notations Utils AsyncioFacts.

Local Open Scope nat_scope.

Section Concurrency.
Context {Entity Kw V : Type}.
Implicit Types (w : world Entity Kw V) (s pre post : schedule).
Implicit Types (t : task_id) (fs : gset task_id) (o : outcome V).
Implicit Types (f coro : operation Entity Kw V) (e : Entity) (kw : Kw).
Implicit Types (funcs : list (operation Entity Kw V)) (entities : list Entity).

(** The calls of [... for entity in entities for f in funcs], in order. *)
Definition pairs funcs entities : list (operation Entity Kw V * Entity) :=
  flat_map (fun entity => (fun f => (f, entity)) <$> funcs) entities.

(** The loop once [calls] have been made and a task created for each. *)
Definition spawned w (calls : list (operation Entity Kw V * Entity)) kw
  : world Entity Kw V :=
  World (tasks w ++ ((fun fe => Pending (fe.1 fe.2 kw)) <$> calls))
        (completed w) (invoked w ++ calls).

(** The identifiers of the next [n] tasks created in [w]. *)
Definition batch w (n : nat) : gset task_id :=
  list_to_set (seq (length (tasks w)) n).

Lemma length_pairs funcs entities :
  length (pairs funcs entities) = length funcs * length entities.
Proof.
  unfold pairs. induction entities as [|e entities IH]; simpl; [lia|].
  rewrite length_app, length_fmap, IH. lia.
Qed.

Lemma pairs_nil_funcs entities : pairs [] entities = [].
Proof. unfold pairs. induction entities; simpl; auto. Qed.

Lemma elem_of_batch w n t :
  t ∈ batch w n <-> length (tasks w) <= t < length (tasks w) + n.
Proof. unfold batch. by rewrite elem_of_list_to_set, elem_of_seq. Qed.

Lemma batch_empty w : batch w 0 = ∅.
Proof. reflexivity. Qed.

Lemma batch_nonempty w n : 0 < n -> batch w n <> ∅.
Proof.
  intros Hn Hb. assert (length (tasks w) ∈ batch w n) as Hin
    by (apply elem_of_batch; lia).
  rewrite Hb in Hin. by apply not_elem_of_empty in Hin.
Qed.

Lemma size_batch w n : size (batch w n) = n.
Proof.
  unfold batch. rewrite size_list_to_set by apply NoDup_seq.
  apply length_seq.
Qed.

Lemma spawned_nil w kw : spawned w [] kw = w.
Proof. destruct w. unfold spawned. simpl. by rewrite !app_nil_r. Qed.

Lemma spawned_app w calls1 calls2 kw :
  spawned (spawned w calls1 kw) calls2 kw = spawned w (calls1 ++ calls2) kw.
Proof. unfold spawned. simpl. by rewrite fmap_app, !app_assoc. Qed.

Lemma length_spawned w calls kw :
  length (tasks (spawned w calls kw)) = length (tasks w) + length calls.
Proof. unfold spawned. simpl. by rewrite length_app, length_fmap. Qed.

Lemma batch_app w calls kw n m :
  length calls = n ->
  batch w n ∪ batch (spawned w calls kw) m = batch w (n + m).
Proof.
  intros <-. unfold batch. rewrite length_spawned, seq_app.
  by rewrite list_to_set_app_L.
Qed.

Lemma spawned_lookup_old w calls kw t :
  t < length (tasks w) -> tasks (spawned w calls kw) !! t = tasks w !! t.
Proof. intros Ht. unfold spawned. simpl. by rewrite lookup_app_l. Qed.

Lemma spawned_lookup_new w calls kw i f e :
  calls !! i = Some (f, e) ->
  tasks (spawned w calls kw) !! (length (tasks w) + i)
  = Some (Pending (f e kw)).
Proof.
  intros Hi. unfold spawned, operation in *. simpl.
  rewrite lookup_app_r by lia.
  replace (length (tasks w) + i - length (tasks w)) with i by lia.
  by rewrite list_lookup_fmap, Hi.
Qed.

Lemma spawned_wf w calls kw : wf w -> wf (spawned w calls kw).
Proof.
  intros [Hnd Hlog]. split; [done|]. intros t. simpl. rewrite Hlog.
  rewrite !is_done_Finished. unfold spawned. simpl.
  destruct (decide (t < length (tasks w))) as [Hlt|Hge].
  - by rewrite lookup_app_l.
  - rewrite lookup_app_r, list_lookup_fmap by lia.
    rewrite (lookup_ge_None_2 (tasks w)) by lia.
    split; intros [o Ho]; [done|].
    apply fmap_Some in Ho as (fe & _ & [=]).
Qed.

(** One task per element of [xs], for the call that [mk] gives. *)
Lemma set_for_spawn {A} (mk : A -> operation Entity Kw V * Entity)
    (xs : list A) kw w s :
  set_for xs (fun x =>
      c <- call (mk x).1 (mk x).2 kw ;;
      t <- ensure_future c ;;
      ret {[ t ]}) w s
  = (Returned (batch w (length xs)), spawned w (mk <$> xs) kw, s).
Proof.
  revert w. induction xs as [|x xs IH]; intros w.
  - simpl. unfold ret. by rewrite spawned_nil.
  - cbn [set_for]. unfold bind at 1. unfold bind at 1. unfold call at 1.
    unfold bind at 1. unfold ensure_future at 1. unfold ret at 1.
    unfold bind at 1. rewrite IH. unfold ret. f_equal. f_equal.
    + f_equal. simpl. unfold batch. simpl. by rewrite length_app, Nat.add_1_r.
    + unfold spawned. rewrite fmap_cons. destruct (mk x) as [f e]. simpl.
      by rewrite <- !app_assoc.
Qed.

Lemma set_for_funcs funcs e kw w s :
  set_for funcs (fun get_and_set_func =>
      c <- call get_and_set_func e kw ;;
      t <- ensure_future c ;;
      ret {[ t ]}) w s
  = (Returned (batch w (length funcs)),
     spawned w ((fun f => (f, e)) <$> funcs) kw, s).
Proof. exact (set_for_spawn (fun f => (f, e)) funcs kw w s). Qed.

Lemma set_for_entities coro entities kw w s :
  set_for entities (fun entity =>
      c <- call coro entity kw ;;
      t <- ensure_future c ;;
      ret {[ t ]}) w s
  = (Returned (batch w (length entities)),
     spawned w ((fun e => (coro, e)) <$> entities) kw, s).
Proof. exact (set_for_spawn (fun e => (coro, e)) entities kw w s). Qed.

Lemma set_for_pairs funcs entities kw w s :
  set_for entities (fun entity =>
      set_for funcs (fun get_and_set_func =>
        c <- call get_and_set_func entity kw ;;
        t <- ensure_future c ;;
        ret {[ t ]})) w s
  = (Returned (batch w (length (pairs funcs entities))),
     spawned w (pairs funcs entities) kw, s).
Proof.
  revert w. induction entities as [|e entities IH]; intros w.
  - simpl. unfold ret. by rewrite spawned_nil.
  - cbn [set_for]. unfold bind at 1. rewrite set_for_funcs.
    unfold bind at 1. rewrite IH. unfold ret. simpl.
    rewrite spawned_app, length_app, length_fmap.
    by rewrite (batch_app w _ kw (length funcs)) by apply length_fmap.
Qed.

(** *** [get_and_set_concurrently] *)

Lemma bind_ret_tt {A} (m : M Entity Kw V A) w s :
  (_ <- m ;; ret tt) w s
  = (match status_of (m w s) with
     | Returned _ => Returned tt
     | Raised x => Raised x
     | Blocked => Blocked
     end, world_after (m w s), schedule_left (m w s)).
Proof. unfold bind. by destruct (m w s) as [[[a|x|] w'] s']. Qed.

Lemma get_and_set_unfold funcs entities kw w s :
  entities <> [] ->
  get_and_set_concurrently funcs entities kw w s
  = (_ <- wait (batch w (length (pairs funcs entities))) ;; ret tt)
      (spawned w (pairs funcs entities) kw) s.
Proof.
  intros Hne. unfold get_and_set_concurrently.
  destruct entities as [|e entities]; [done|].
  change (length (e :: entities) =? 0) with false. cbv iota.
  unfold bind at 1. by rewrite set_for_pairs.
Qed.

(** With entities and at least one function, the call never raises: it has
    returned if every task of the batch is done where the loop stands, and
    is suspended, the schedule used up, if one is not. *)
Lemma get_and_set_inv funcs entities kw w s :
  entities <> [] -> funcs <> [] ->
  let run := get_and_set_concurrently funcs entities kw w s in
  let fs := batch w (length (pairs funcs entities)) in
  exists pre,
    s = pre ++ schedule_left run /\
    world_after run = run_sched pre (spawned w (pairs funcs entities) kw) /\
    (status_of run = Returned tt /\ all_done fs (world_after run) = true \/
     status_of run = Blocked /\ all_done fs (world_after run) = false /\
     schedule_left run = []).
Proof.
  intros He Hf run fs. subst run. rewrite get_and_set_unfold by done.
  rewrite bind_ret_tt. fold fs.
  destruct (wait_inv fs (spawned w (pairs funcs entities) kw) s)
    as (pre & Hs & Hw & Hr).
  { apply batch_nonempty. rewrite length_pairs.
    destruct funcs, entities; simpl; try done; lia. }
  exists pre. unfold status_of, world_after, schedule_left in *. simpl.
  rewrite Hw. split; [done|]. split; [done|].
  destruct Hr as [[-> ?]|(-> & ? & ?)]; auto.
Qed.

Lemma get_and_set_live funcs entities kw w s :
  entities <> [] -> funcs <> [] ->
  all_done (batch w (length (pairs funcs entities)))
           (run_sched s (spawned w (pairs funcs entities) kw)) = true ->
  status_of (get_and_set_concurrently funcs entities kw w s) = Returned tt.
Proof.
  intros He Hf Hall.
  destruct (get_and_set_inv funcs entities kw w s He Hf)
    as (pre & Hs & Hw & [[Hret _]|(_ & Hnot & Hnil)]); [done|].
  rewrite Hnil, app_nil_r in Hs. subst pre. rewrite Hw in Hnot. congruence.
Qed.

Lemma batch_spawned w calls kw t :
  t ∈ batch w (length calls) -> t < length (tasks (spawned w calls kw)).
Proof. rewrite elem_of_batch, length_spawned. lia. Qed.

(** Some schedule lets the call return: the one that takes each task of the
    batch to its end. *)
Lemma get_and_set_returns funcs entities kw w :
  entities <> [] -> funcs <> [] ->
  exists s,
    status_of (get_and_set_concurrently funcs entities kw w s) = Returned tt.
Proof.
  intros He Hf. eexists. apply get_and_set_live; [done..|].
  apply all_done_run_to_end. intros t. apply batch_spawned.
Qed.

(** C7: with no entities, [get_and_set_concurrently] returns at once, whatever
    the functions: no turn of the loop is taken, no function is called and no
    task is created. *)
Theorem get_and_set_no_entities funcs kw w s :
  get_and_set_concurrently funcs [] kw w s = (Returned tt, w, s).
Proof. reflexivity. Qed.

Lemma get_and_set_empty_batch entities kw w s :
  entities <> [] ->
  get_and_set_concurrently [] entities kw w s = (Raised ValueError, w, s).
Proof.
  intros Hne. rewrite get_and_set_unfold by done.
  rewrite pairs_nil_funcs, spawned_nil. simpl. rewrite batch_empty.
  unfold bind. by rewrite wait_empty.
Qed.

(** C10: with entities but no functions, [get_and_set_concurrently] is not a
    no-op that returns: the guard looks at the entities only, the set of tasks
    comes out empty, and [asyncio.wait] raises [ValueError] on it. *)
Theorem get_and_set_no_funcs entities kw w s :
  entities <> [] ->
  get_and_set_concurrently [] entities kw w s = (Raised ValueError, w, s).
Proof. apply get_and_set_empty_batch. Qed.

(** C1: with entities, [get_and_set_concurrently] makes one call and creates
    one task per pair of the cross product, [length funcs * length entities]
    in all, the [i]-th new task running the [i]-th pair; if it returns, every
    one of these tasks is done; and it does return as soon as the schedule
    has brought them all to an end, however each ended, which some schedule
    does. *)
Theorem get_and_set_schedules_all funcs entities kw w s :
  entities <> [] ->
  let run := get_and_set_concurrently funcs entities kw w s in
  let first := length (tasks w) in
  let calls := pairs funcs entities in
  length calls = length funcs * length entities /\
  length (tasks (world_after run)) = first + length funcs * length entities /\
  invoked (world_after run) = invoked w ++ calls /\
  (forall i f e,
     calls !! i = Some (f, e) ->
     eventual <$> tasks (world_after run) !! (first + i)
     = Some (outcome_of (f e kw))) /\
  (status_of run = Returned tt ->
   forall t, first <= t < first + length calls ->
     is_done (world_after run) t = true) /\
  (funcs <> [] ->
   all_done (batch w (length calls)) (run_sched s (spawned w calls kw)) = true ->
   status_of run = Returned tt) /\
  (funcs <> [] ->
   exists s',
     status_of (get_and_set_concurrently funcs entities kw w s') = Returned tt).
Proof.
  intros He run first calls. split; [apply length_pairs|].
  destruct (decide (funcs = [])) as [->|Hf].
  - subst run calls. rewrite get_and_set_empty_batch by done.
    rewrite pairs_nil_funcs. unfold world_after, status_of. simpl.
    split; [lia|]. split; [by rewrite app_nil_r|]. split; [done|].
    split; [done|]. done.
  - destruct (get_and_set_inv funcs entities kw w s He Hf)
      as (pre & Hs & Hw & Hr). fold run calls in Hs, Hw, Hr.
    rewrite Hw. split; [|split; [|split; [|split; [|split]]]].
    + unfold calls. by rewrite run_sched_length, length_spawned, length_pairs.
    + by rewrite run_sched_invoked.
    + intros i f e Hi. rewrite run_sched_eventual. unfold first.
      by rewrite (spawned_lookup_new _ _ _ _ f e).
    + intros Hret t Ht. destruct Hr as [[_ Hall]|[Hb _]]; [|congruence].
      rewrite Hw in Hall. rewrite all_done_spec in Hall.
      apply Hall, elem_of_batch. done.
    + intros _ Hall. by apply get_and_set_live.
    + intros _. by apply get_and_set_returns.
Qed.

(** C2: when a task of the batch fails, [get_and_set_concurrently] does not
    raise, whatever the schedule; once every task has come to an end it
    returns normally, and the failure stays with the task that failed; and
    some schedule does bring every task to its end. *)
Theorem get_and_set_absorbs_failures funcs entities kw w s i f e x :
  entities <> [] ->
  pairs funcs entities !! i = Some (f, e) ->
  outcome_of (f e kw) = Failure x ->
  let run := get_and_set_concurrently funcs entities kw w s in
  let calls := pairs funcs entities in
  (forall x', status_of run <> Raised x') /\
  (all_done (batch w (length calls)) (run_sched s (spawned w calls kw)) = true ->
   status_of run = Returned tt /\
   tasks (world_after run) !! (length (tasks w) + i)
   = Some (Finished (Failure x))) /\
  (exists s',
     status_of (get_and_set_concurrently funcs entities kw w s') = Returned tt).
Proof.
  intros He Hi Hfail run calls.
  assert (funcs <> []) as Hf.
  { intros ->. by rewrite pairs_nil_funcs in Hi. }
  destruct (get_and_set_inv funcs entities kw w s He Hf)
    as (pre & Hs & Hw & Hr). fold run calls in Hs, Hw, Hr.
  split; [|split; [|by apply get_and_set_returns]].
  { intros x'. destruct Hr as [[-> _]|[-> _]]; discriminate. }
  intros Hall. destruct Hr as [[Hret Hdone]|(_ & Hnot & Hnil)].
  - split; [done|]. rewrite all_done_spec in Hdone.
    assert (length (tasks w) + i ∈ batch w (length calls)) as Hin.
    { apply elem_of_batch. apply lookup_lt_Some in Hi. fold calls in Hi. lia. }
    apply Hdone, is_done_Finished in Hin as [o Ho].
    pose proof (run_sched_eventual pre (spawned w calls kw)
                  (length (tasks w) + i)) as Hev.
    rewrite <- Hw, Ho, (spawned_lookup_new _ _ _ _ f e) in Hev by done.
    simpl in Hev. injection Hev as ->. rewrite Hfail in Ho. exact Ho.
  - rewrite Hnil, app_nil_r in Hs. subst pre. rewrite Hw in Hnot. congruence.
Qed.

(** *** [map_concurrently] *)

Lemma bind_ret {A} (m : M Entity Kw V A) w s : (x <- m ;; ret x) w s = m w s.
Proof. unfold bind. by destruct (m w s) as [[[a|x|] w'] s']. Qed.

Lemma map_unfold coro entities kw w s :
  entities <> [] ->
  map_concurrently coro entities kw w s
  = collect (as_completed (batch w (length entities))) []
      (spawned w ((fun e => (coro, e)) <$> entities) kw) s.
Proof.
  intros Hne. unfold map_concurrently.
  destruct entities as [|e entities]; [done|].
  change (length (e :: entities) =? 0) with false. cbv iota.
  unfold bind at 1. rewrite set_for_entities. apply bind_ret.
Qed.

Lemma wait_for_one_unfold fs i w s :
  wait_for_one fs i w s
  = match run_until (queued fs i) w s with
    | (Returned _, w', s') =>
        match done_queue fs w' !! i with
        | Some t => task_result t w' s'
        | None => (Blocked, w', s')
        end
    | (Raised x, w', s') => (Raised x, w', s')
    | (Blocked, w', s') => (Blocked, w', s')
    end.
Proof. reflexivity. Qed.

(** What an awaitable of [as_completed] can be observed to have done. *)
Lemma wait_for_one_inv fs i w s r w' s' :
  wf w -> wait_for_one fs i w s = (r, w', s') ->
  exists pre,
    s = pre ++ s' /\ w' = run_sched pre w /\
    match r with
    | Returned v =>
        exists t, done_queue fs w' !! i = Some t /\
                  tasks w' !! t = Some (Finished (Success v))
    | Raised x =>
        exists t, done_queue fs w' !! i = Some t /\
                  tasks w' !! t = Some (Finished (Failure x))
    | Blocked => length (done_queue fs w') <= i /\ s' = []
    end.
Proof.
  intros Hwf. rewrite wait_for_one_unfold.
  destruct (run_until_inv (queued fs i) w s) as (pre & Hs & Hw & Hr).
  destruct (run_until (queued fs i) w s) as [[r1 w1] s1].
  unfold status_of, world_after, schedule_left in *. simpl in *.
  subst w1. destruct Hr as [[-> Hq]|(-> & Hq & ->)].
  - unfold queued in Hq. apply Nat.ltb_lt in Hq.
    destruct (lookup_lt_is_Some_2 _ _ Hq) as [t Ht]. rewrite Ht.
    destruct (done_queue_lookup fs _ i t (run_sched_wf pre w Hwf) Ht)
      as [_ [o Ho]].
    unfold task_result. rewrite Ho. destruct o as [v|x]; intros [= <- <- <-];
      exists pre; eauto.
  - intros [= <- <- <-]. exists pre. unfold queued in Hq.
    apply Nat.ltb_ge in Hq. auto.
Qed.

(** The batch [fs] has no failing task. *)
Definition all_succeed fs w : Prop :=
  forall t, t ∈ fs -> exists v, eventual <$> tasks w !! t = Some (Success v).

Lemma all_succeed_run_sched fs w s :
  all_succeed fs w -> all_succeed fs (run_sched s w).
Proof. intros H t Ht. rewrite run_sched_eventual. auto. Qed.

(** The drain, when no task of the batch fails: it never raises; if it has
    returned, it has taken the next [n] items of the queue, in order; if it
    is suspended, the schedule is used up and the queue is still short. *)
Lemma collect_inv fs n : forall i acc w s r w' s',
  wf w -> all_succeed fs w -> i <= length (done_queue fs w) ->
  collect (wait_for_one fs <$> seq i n) acc w s = (r, w', s') ->
  exists pre,
    s = pre ++ s' /\ w' = run_sched pre w /\
    match r with
    | Returned vs =>
        i + n <= length (done_queue fs w') /\
        exists vals,
          vs = acc ++ vals /\
          Forall2 (fun t v => eventual <$> tasks w !! t = Some (Success v))
                  (take n (drop i (done_queue fs w'))) vals
    | Raised _ => False
    | Blocked => length (done_queue fs w') < i + n /\ s' = []
    end.
Proof.
  induction n as [|n IH]; intros i acc w s r w' s' Hwf Hok Hi.
  - simpl. intros [= <- <- <-]. exists []. split; [done|]. split; [done|].
    split; [lia|]. exists []. rewrite app_nil_r. split; [done|].
    rewrite take_0. constructor.
  - cbn [seq fmap list_fmap collect]. unfold bind at 1.
    destruct (wait_for_one fs i w s) as [[r1 w1] s1] eqn:E1.
    destruct (wait_for_one_inv fs i w s r1 w1 s1 Hwf E1)
      as (pre1 & -> & -> & H1).
    destruct r1 as [v|x|].
    + destruct H1 as (t & Hq & Ht). intros E2.
      apply IH in E2 as (pre2 & -> & -> & H2);
        [|by apply run_sched_wf|by apply all_succeed_run_sched
         |apply lookup_lt_Some in Hq; lia].
      exists (pre1 ++ pre2). rewrite <- app_assoc, run_sched_app.
      split; [done|]. split; [done|].
      set (w1 := run_sched pre1 w) in *. set (w2 := run_sched pre2 w1) in *.
      destruct r as [vs|x|]; [|done|destruct H2; split; [lia|done]].
      destruct H2 as (Hlen & vals & -> & Hvals). split; [lia|].
      exists (v :: vals). rewrite <- app_assoc. split; [done|].
      assert (done_queue fs w2 !! i = Some t) as Hq2.
      { eapply prefix_lookup_Some; [exact Hq|apply done_queue_mono]. }
      rewrite (drop_S _ t) by done. cbn [take]. constructor.
      * pose proof (run_sched_eventual pre1 w t) as Hev. fold w1 in Hev.
        by rewrite Ht in Hev.
      * eapply Forall2_impl; [exact Hvals|]. intros t' v' Hv'.
        unfold w1 in Hv'. by rewrite run_sched_eventual in Hv'.
    + destruct H1 as (t & Hq & Ht). exfalso.
      apply done_queue_lookup in Hq as [Hfs _]; [|by apply run_sched_wf].
      destruct (Hok t Hfs) as [v Hv].
      rewrite <- (run_sched_eventual pre1), Ht in Hv. discriminate.
    + destruct H1 as [Hlen ->]. intros [= <- <- <-]. exists pre1.
      split; [done|]. split; [done|]. split; [lia|done].
Qed.

(** A wait for the [i]-th item that is there by the end of [pre] ends inside
    [pre], and gives a value if no task of the batch has failed by then. *)
Lemma wait_for_one_ok fs i w pre :
  wf w ->
  i < length (done_queue fs (run_sched pre w)) ->
  (forall t' x', t' ∈ fs ->
     tasks (run_sched pre w) !! t' <> Some (Finished (Failure x'))) ->
  exists p1 p2 v,
    pre = p1 ++ p2 /\
    forall post,
      wait_for_one fs i w (pre ++ post) = (Returned v, run_sched p1 w, p2 ++ post).
Proof.
  intros Hwf Hi Hnofail.
  destruct (run_until_within (queued fs i) pre w (queued_stable fs i))
    as (p1 & p2 & -> & Hq & Hrun).
  { unfold queued. by apply Nat.ltb_lt. }
  unfold queued in Hq. apply Nat.ltb_lt in Hq.
  destruct (lookup_lt_is_Some_2 _ _ Hq) as [t Ht].
  destruct (done_queue_lookup fs _ i t (run_sched_wf p1 w Hwf) Ht)
    as [Hfs [o Ho]].
  destruct o as [v|x].
  - exists p1, p2, v. split; [done|]. intros post.
    rewrite wait_for_one_unfold, Hrun, Ht. unfold task_result. by rewrite Ho.
  - exfalso. apply (Hnofail t x Hfs). rewrite run_sched_app.
    by apply run_sched_finished.
Qed.

(** A wait for the next item ends on the very turn on which a task of the
    batch finishes, and raises if that task failed. *)
Lemma wait_for_one_fail fs w pre t post x :
  t ∈ fs ->
  tasks (run_sched pre w) !! t = Some (Pending (Finish (Failure x))) ->
  wait_for_one fs (length (done_queue fs (run_sched pre w))) w
               (pre ++ t :: post)
  = (Raised x, resume t (run_sched pre w), post).
Proof.
  intros Hfs Ht.
  destruct (done_queue_finish fs _ t _ Hfs Ht) as [Hq Hdone].
  rewrite wait_for_one_unfold, run_until_exact.
  - rewrite Hq, (list_lookup_middle _ [] t) by done. unfold task_result.
    by rewrite Hdone.
  - apply queued_stable.
  - unfold queued. apply Nat.ltb_ge. lia.
  - unfold queued. apply Nat.ltb_lt. rewrite Hq, length_app. simpl. lia.
Qed.

(** The drain stops at the first failure: on the turn on which a task of
    the batch fails, no other having failed before, the error is raised and
    the rest of the schedule is not waited for. *)
Lemma collect_fail fs t post x n : forall i acc w pre,
  wf w -> t ∈ fs ->
  tasks (run_sched pre w) !! t = Some (Pending (Finish (Failure x))) ->
  (forall t' x', t' ∈ fs ->
     tasks (run_sched pre w) !! t' <> Some (Finished (Failure x'))) ->
  i <= length (done_queue fs (run_sched pre w)) < i + n ->
  collect (wait_for_one fs <$> seq i n) acc w (pre ++ t :: post)
  = (Raised x, resume t (run_sched pre w), post).
Proof.
  induction n as [|n IH]; intros i acc w pre Hwf Hfs Ht Hnofail Hi; [lia|].
  cbn [seq fmap list_fmap collect]. unfold bind at 1.
  destruct (decide (i = length (done_queue fs (run_sched pre w)))) as [->|Hne].
  - by rewrite (wait_for_one_fail fs w pre t post x).
  - destruct (wait_for_one_ok fs i w pre) as (p1 & p2 & v & -> & Hrun);
      [done|lia|done|].
    rewrite Hrun. rewrite run_sched_app in *.
    apply IH; [by apply run_sched_wf|done..|lia].
Qed.

Lemma NoDup_length_size (l : list task_id) fs :
  NoDup l -> (forall t, t ∈ l -> t ∈ fs) -> length l <= size fs.
Proof.
  intros Hnd Hin. rewrite <- (size_list_to_set (C := gset task_id)) by done.
  apply subseteq_size. intros t. rewrite elem_of_list_to_set. auto.
Qed.

Lemma omap_ext_elem {A B} (g h : A -> option B) (l : list A) :
  (forall a, a ∈ l -> g a = h a) -> omap g l = omap h l.
Proof.
  induction l as [|a l IH]; intros Hgh; [done|]. cbn [omap list_omap].
  rewrite (Hgh a) by apply list_elem_of_here.
  rewrite IH; [done|]. intros b Hb. apply Hgh. by apply list_elem_of_further.
Qed.

(** The result of the task of each entity, listed by task identifier. *)
Lemma omap_lookup_seq {A B} (g : A -> B) (l : list A) first :
  omap (fun t => g <$> l !! (t - first)) (seq first (length l)) = g <$> l.
Proof.
  revert first. induction l as [|a l IH]; intros first; [done|].
  cbn [length seq omap list_omap]. rewrite Nat.sub_diag, fmap_cons.
  change (g <$> (a :: l) !! 0) with (Some (g a)). cbv iota beta. f_equal.
  rewrite <- (IH (S first)). apply omap_ext_elem. intros t Ht.
  apply elem_of_seq in Ht. by replace (t - first) with (S (t - S first)) by lia.
Qed.

Lemma Forall2_omap {A B} (h : A -> option B) (l : list A) (k : list B) :
  Forall2 (fun a b => h a = Some b) l k -> omap h l = k.
Proof.
  induction 1 as [|a b l k Hab _ IH]; [done|].
  cbn [omap list_omap]. by rewrite Hab, IH.
Qed.

(** In this model the drain is over on the turn on which the first task
    fails. *)
Lemma map_fails_at coro entities kw w pre t post x :
  wf w ->
  let w1 := spawned w ((fun e => (coro, e)) <$> entities) kw in
  let fs := batch w (length entities) in
  t ∈ fs ->
  tasks (run_sched pre w1) !! t = Some (Pending (Finish (Failure x))) ->
  (forall t' x', t' ∈ fs ->
     tasks (run_sched pre w1) !! t' <> Some (Finished (Failure x'))) ->
  map_concurrently coro entities kw w (pre ++ t :: post)
  = (Raised x, resume t (run_sched pre w1), post).
Proof.
  intros Hwf w1 fs Hfs Ht Hnofail.
  assert (wf (run_sched pre w1)) as HwfW
    by by apply run_sched_wf, spawned_wf.
  assert (entities <> []) as Hne.
  { intros ->. apply elem_of_batch in Hfs. simpl in Hfs. lia. }
  rewrite map_unfold by done. fold w1 fs. unfold as_completed.
  apply collect_fail; [by apply spawned_wf|done..|].
  split; [lia|].
  assert (t ∉ done_queue fs (run_sched pre w1)) as Hfresh.
  { rewrite done_queue_elem. intros [_ Hc].
    apply HwfW, is_done_Finished in Hc as [o Ho]. congruence. }
  pose proof (NoDup_length_size (t :: done_queue fs (run_sched pre w1)) fs)
    as Hlen.
  simpl in Hlen. apply Hlen.
  - apply NoDup_cons. split; [done|]. by apply done_queue_NoDup.
  - intros t' [->|Ht']%elem_of_cons; [done|].
    by apply done_queue_elem in Ht' as [? _].
Qed.

(** C3: [map_concurrently] fails fast.  Once a task of the batch has failed,
    no task of the batch having failed before it, the call raises that
    task's error, whatever turns follow and even if none does: the tasks of
    the other entities need not have finished, and need not ever finish. *)
Theorem map_concurrently_fails_fast coro entities kw w pre t x :
  wf w ->
  let w1 := spawned w ((fun e => (coro, e)) <$> entities) kw in
  let fs := batch w (length entities) in
  t ∈ fs ->
  tasks (run_sched pre w1) !! t = Some (Pending (Finish (Failure x))) ->
  (forall t' x', t' ∈ fs ->
     tasks (run_sched pre w1) !! t' <> Some (Finished (Failure x'))) ->
  forall post,
    status_of (map_concurrently coro entities kw w (pre ++ t :: post))
    = Raised x.
Proof.
  intros Hwf w1 fs Hfs Ht Hnofail post.
  by rewrite (map_fails_at coro entities kw w pre t post x).
Qed.

(** C4: when no task of the batch fails, [map_concurrently] never raises; if
    it returns, it returns the result of each entity once, [length entities]
    in all, listed in the order in which the tasks finished; it does return
    once the schedule has brought every task to its end, which some
    schedule does; and with no entities it returns the empty list at once,
    the loop untouched. *)
Theorem map_concurrently_all_succeed coro entities kw w s (g : Entity -> V) :
  wf w ->
  (forall e, e ∈ entities -> outcome_of (coro e kw) = Success (g e)) ->
  let run := map_concurrently coro entities kw w s in
  let w1 := spawned w ((fun e => (coro, e)) <$> entities) kw in
  let fs := batch w (length entities) in
  (forall x, status_of run <> Raised x) /\
  (forall vs, status_of run = Returned vs ->
     vs ≡ₚ g <$> entities /\
     length vs = length entities /\
     vs = omap (fun t => g <$> entities !! (t - length (tasks w)))
               (done_queue fs (world_after run))) /\
  (all_done fs (run_sched s w1) = true -> exists vs, status_of run = Returned vs) /\
  (exists s' vs,
     status_of (map_concurrently coro entities kw w s') = Returned vs) /\
  map_concurrently coro [] kw w s = (Returned [], w, s).
Proof.
  intros Hwf Hg run w1 fs.
  destruct (decide (entities = [])) as [->|Hne].
  { subst run. unfold status_of, world_after. simpl.
    split; [done|]. split; [|by eauto 10].
    intros vs [= <-]. by rewrite done_queue_empty. }
  assert (wf w1) as Hwf1 by by apply spawned_wf.
  assert (forall t v, t ∈ fs -> eventual <$> tasks w1 !! t = Some (Success v) ->
            g <$> entities !! (t - length (tasks w)) = Some v) as Hval.
  { intros t v Ht Hv. apply elem_of_batch in Ht.
    destruct (lookup_lt_is_Some_2 entities (t - length (tasks w)))
      as [e He]; [lia|].
    unfold w1 in Hv.
    replace t with (length (tasks w) + (t - length (tasks w))) in Hv at 1 by lia.
    rewrite (spawned_lookup_new _ _ _ _ coro e) in Hv
      by by rewrite list_lookup_fmap, He.
    simpl in Hv. rewrite Hg in Hv by eauto using list_elem_of_lookup_2.
    rewrite He. simpl. congruence. }
  assert (all_succeed fs w1) as Hok.
  { intros t Ht. pose proof Ht as Ht'. apply elem_of_batch in Ht'.
    destruct (lookup_lt_is_Some_2 entities (t - length (tasks w)))
      as [e He]; [lia|].
    exists (g e). unfold w1.
    replace t with (length (tasks w) + (t - length (tasks w))) at 1 by lia.
    rewrite (spawned_lookup_new _ _ _ _ coro e)
      by by rewrite list_lookup_fmap, He.
    simpl. f_equal. eauto using list_elem_of_lookup_2. }
  assert (forall s0, all_done fs (run_sched s0 w1) = true ->
            exists vs,
              status_of (map_concurrently coro entities kw w s0) = Returned vs)
    as Hlive.
  { intros s0 Hall. rewrite map_unfold by done. fold w1 fs.
    unfold as_completed.
    replace (size fs) with (length entities) by (symmetry; apply size_batch).
    destruct (collect (wait_for_one fs <$> seq 0 (length entities)) [] w1 s0)
      as [[r w'] s'] eqn:E.
    apply collect_inv in E as (pre & -> & -> & Hr); [|done|done|lia].
    unfold status_of. simpl.
    destruct r as [vs|x|]; [by eauto|done|].
    destruct Hr as [Hlen ->]. rewrite app_nil_r in *.
    pose proof (done_queue_full fs _ (run_sched_wf pre w1 Hwf1) Hall) as Hfull.
    apply Permutation_length in Hfull.
    change (length (elements fs)) with (size fs) in Hfull.
    unfold fs in Hfull at 2. rewrite size_batch in Hfull. simpl in Hlen. lia. }
  split; [|split; [|split; [by apply Hlive|split; [|done]]]]; cycle 2.
  { eexists. apply Hlive, all_done_run_to_end. intros t Ht.
    apply batch_spawned. by rewrite length_fmap. }
  all: subst run; rewrite map_unfold by done; fold w1 fs; unfold as_completed;
    replace (size fs) with (length entities) by (symmetry; apply size_batch);
    destruct (collect (wait_for_one fs <$> seq 0 (length entities)) [] w1 s)
      as [[r w'] s'] eqn:E;
    apply collect_inv in E as (pre & -> & -> & Hr); [|done|done|lia];
    unfold status_of, world_after; simpl.
  - intros x ->. done.
  - intros vs ->. destruct Hr as (Hlen & vals & -> & Hvals). simpl in *.
    set (q := done_queue fs (run_sched pre w1)) in *.
    assert (wf (run_sched pre w1)) as Hwf' by by apply run_sched_wf.
    pose proof (done_queue_size fs _ Hwf') as Hsize. fold q in Hsize.
    unfold fs in Hsize at 1. rewrite size_batch in Hsize.
    rewrite drop_0, take_ge in Hvals by lia.
    assert (omap (fun t => g <$> entities !! (t - length (tasks w))) q = vals)
      as Hvs.
    { apply Forall2_omap.
      assert (Forall (.∈ fs) q) as Hq.
      { apply Forall_forall. intros t Ht. by apply done_queue_elem in Ht as []. }
      clear -Hq Hvals Hval. induction Hvals; constructor; decompose_Forall; eauto. }
    assert (q ≡ₚ seq (length (tasks w)) (length entities)) as Hperm.
    { apply submseteq_length_Permutation; [|rewrite length_seq; lia].
      apply NoDup_submseteq; [by apply done_queue_NoDup|].
      intros t Ht. apply done_queue_elem in Ht as [Ht _].
      by apply elem_of_batch, elem_of_seq in Ht. }
    split; [|split; [|done]].
    + rewrite <- Hvs, Hperm. by rewrite omap_lookup_seq.
    + apply Forall2_length in Hvals. lia.
Qed.

End Concurrency.
End UtilsFacts.

(** ** The helpers on sample batches *)
Module UtilsExamples.
Import Asyncio Utils AsyncioFacts UtilsFacts Samples.

Local Open Scope nat_scope.

Lemma outcome_of_slow n (c : coroutine nat) :
  outcome_of (slow n c) = outcome_of c.
Proof. induction n; simpl; auto. Qed.

(** Three functions on four entities: twelve tasks, and the call returns
    once all twelve are done, the failed one included. *)
Example three_by_four :
  let run :=
    get_and_set_concurrently [describe; attributes; policy] [1; 2; 3; 4] tt
                             fresh (round_robin 12 2) in
  length (tasks (world_after run)) = 12 /\
  length (invoked (world_after run)) = 12 /\
  status_of run = Returned tt /\
  forallb (is_done (world_after run)) (seq 0 12) = true /\
  tasks (world_after run) !! 5
  = Some (Finished (Failure (OtherError "AccessDenied"))).
Proof. vm_compute. repeat split; reflexivity. Qed.

(** While a task of the batch has not finished, the call has not returned. *)
Example three_by_four_blocked :
  status_of (get_and_set_concurrently [describe; attributes; policy]
               [1; 2; 3; 4] tt fresh (round_robin 12 1))
  = Blocked.
Proof. vm_compute. reflexivity. Qed.

Lemma get_and_set_schedules_all_witness :
  let funcs := [describe; attributes; policy] in
  let entities := [1; 2; 3; 4] in
  let run :=
    get_and_set_concurrently funcs entities tt fresh (round_robin 12 2) in
  entities <> [] /\
  length (pairs funcs entities) = 3 * 4 /\
  length (tasks (world_after run)) = 0 + 3 * 4 /\
  status_of run = Returned tt /\
  (forall t, 0 <= t < 0 + length (pairs funcs entities) ->
     is_done (world_after run) t = true).
Proof.
  intros funcs entities run.
  assert (entities <> []) as Hne by discriminate.
  destruct (get_and_set_schedules_all funcs entities tt fresh
              (round_robin 12 2) Hne)
    as (Hcalls & Hlen & _ & _ & Hdone & Hlive & _).
  assert (status_of run = Returned tt) as Hret.
  { apply Hlive; [discriminate|]. vm_compute. reflexivity. }
  split; [exact Hne|]. split; [exact Hcalls|]. split; [exact Hlen|].
  split; [exact Hret|]. exact (Hdone Hret).
Defined.

Lemma get_and_set_absorbs_failures_witness :
  let funcs := [describe; policy] in
  let entities := [1; 2] in
  let run :=
    get_and_set_concurrently funcs entities tt fresh (round_robin 4 2) in
  entities <> [] /\
  pairs funcs entities !! 3 = Some (policy, 2) /\
  outcome_of (policy 2 tt) = Failure (OtherError "AccessDenied") /\
  (forall x', status_of run <> Raised x') /\
  status_of run = Returned tt /\
  tasks (world_after run) !! (0 + 3)
  = Some (Finished (Failure (OtherError "AccessDenied"))).
Proof.
  intros funcs entities run.
  assert (entities <> []) as Hne by discriminate.
  destruct (get_and_set_absorbs_failures funcs entities tt fresh
              (round_robin 4 2) 3 policy 2 (OtherError "AccessDenied")
              Hne eq_refl eq_refl)
    as (Hnoraise & Hlive & _).
  destruct Hlive as [Hret Hfailed]; [vm_compute; reflexivity|].
  split; [exact Hne|]. split; [reflexivity|]. split; [reflexivity|].
  split; [exact Hnoraise|]. split; [exact Hret|exact Hfailed].
Defined.

Lemma get_and_set_no_funcs_witness :
  [1; 2] <> [] /\
  get_and_set_concurrently (V := unit) [] [1; 2] tt fresh [0; 1]
  = (Raised ValueError, fresh, [0; 1]).
Proof.
  assert ([1; 2] <> []) as Hne by discriminate.
  split; [exact Hne|]. exact (get_and_set_no_funcs [1; 2] tt fresh [0; 1] Hne).
Defined.

(** Entity 2 fails while the tasks of entities 1 and 3 are still pending:
    the error is raised although the schedule never brings the other two
    to their end. *)
Example fails_fast_on_second :
  let run :=
    map_concurrently describe_cluster_but_2 [1; 2; 3] tt fresh [0; 2; 1] in
  status_of run = Raised (OtherError "NotFound") /\
  tasks (run_sched [0; 2; 1]
           (spawned fresh ((fun e => (describe_cluster_but_2, e)) <$> [1; 2; 3])
                    tt))
  = [Pending (Finish (Success 10));
     Finished (Failure (OtherError "NotFound"));
     Pending (Await (Await (Finish (Success 30))))].
Proof. vm_compute. split; reflexivity. Qed.

Lemma map_concurrently_fails_fast_witness :
  let w1 := spawned fresh ((fun e => (describe_cluster_but_2, e)) <$> [1; 2; 3])
                    tt in
  let fs := batch (V := nat) fresh 3 in
  wf (V := nat) fresh /\
  1 ∈ fs /\
  tasks (run_sched [0; 2] w1) !! 1
  = Some (Pending (Finish (Failure (OtherError "NotFound")))) /\
  (forall t' x', t' ∈ fs ->
     tasks (run_sched [0; 2] w1) !! t' <> Some (Finished (Failure x'))) /\
  (forall post,
     status_of (map_concurrently describe_cluster_but_2 [1; 2; 3] tt fresh
                  ([0; 2] ++ 1 :: post))
     = Raised (OtherError "NotFound")) /\
  is_done (run_sched ([0; 2] ++ [1]) w1) 0 = false /\
  is_done (run_sched ([0; 2] ++ [1]) w1) 2 = false.
Proof.
  intros w1 fs.
  assert (1 ∈ fs) as Hin by (apply elem_of_batch; simpl; lia).
  assert (forall t' x', t' ∈ fs ->
            tasks (run_sched [0; 2] w1) !! t' <> Some (Finished (Failure x')))
    as Hnofail.
  { intros t' x' Ht' E. apply elem_of_batch in Ht'. simpl in Ht'.
    destruct t' as [|[|[|t']]]; [discriminate E..|lia]. }
  split; [exact wf_empty|]. split; [exact Hin|]. split; [reflexivity|].
  split; [exact Hnofail|]. split; [|split; reflexivity].
  exact (map_concurrently_fails_fast describe_cluster_but_2 [1; 2; 3] tt fresh
           [0; 2] 1 (OtherError "NotFound") wf_empty Hin eq_refl Hnofail).
Defined.

(** Submitted as 3, 1, 2, finished as 1, 2, 3: the results come in the order
    of completion. *)
Example results_in_completion_order :
  let run :=
    map_concurrently describe_cluster [3; 1; 2] tt fresh (round_robin 3 4) in
  status_of run = Returned [10; 20; 30] /\
  completed (world_after run) = [1; 2; 0].
Proof. vm_compute. split; reflexivity. Qed.

Lemma map_concurrently_all_succeed_witness :
  let run :=
    map_concurrently describe_cluster [3; 1; 2] tt fresh (round_robin 3 4) in
  wf (V := nat) fresh /\
  (forall e, e ∈ [3; 1; 2] ->
     outcome_of (describe_cluster e tt) = Success (10 * e)) /\
  (forall x, status_of run <> Raised x) /\
  (exists vs, status_of run = Returned vs /\
     vs ≡ₚ (fun e => 10 * e) <$> [3; 1; 2] /\ length vs = 3) /\
  map_concurrently describe_cluster [] tt fresh (round_robin 3 4)
  = (Returned [], fresh, round_robin 3 4).
Proof.
  intros run.
  assert (forall e, e ∈ [3; 1; 2] ->
            outcome_of (describe_cluster e tt) = Success (10 * e)) as Hg.
  { intros e _. unfold describe_cluster. apply outcome_of_slow. }
  destruct (map_concurrently_all_succeed describe_cluster [3; 1; 2] tt fresh
              (round_robin 3 4) (fun e => 10 * e) wf_empty Hg)
    as (Hnoraise & Hperm & Hlive & _ & Hnil).
  destruct Hlive as [vs Hvs]; [vm_compute; reflexivity|].
  destruct (Hperm vs Hvs) as (Hp & Hl & _).
  split; [exact wf_empty|]. split; [exact Hg|]. split; [exact Hnoraise|].
  split; [|exact Hnil]. exists vs. split; [exact Hvs|]. split; [exact Hp|].
  exact Hl.
Defined.

End UtilsExamples.

(** ** The Cloud SQL facade and the page walker *)
Module CloudSQLFacts.
Import Asyncio Asyncio.Notations Utils CloudSQL AsyncioFacts.

Local Open Scope nat_scope.

Section Facade.
Context {Entity Kw Item Request : Type}.
Variable cloudsql_client : client Item Request.

Abbreviation world := (world Entity Kw (response Item)).
Implicit Types (w : world) (s pre post : schedule).
Implicit Types (req first : Request) (resp : response Item).
Implicit Types (pages : list (response Item)).

(** *** Awaiting an offloaded call *)

(** The loop with the future of [func] added. *)
Definition offloaded w (func : unit -> outcome (response Item)) : world :=
  World (tasks w ++ [Pending (Finish (func tt))]) (completed w) (invoked w).

Definition to_status {A} (o : outcome A) : status A :=
  match o with
  | Success v => Returned v
  | Failure x => Raised x
  end.

Lemma run_sched_untouched pre w t :
  t ∉ pre -> tasks (run_sched pre w) !! t = tasks w !! t.
Proof.
  revert w. induction pre as [|t' pre IH]; intros w Hnot; [done|].
  apply not_elem_of_cons in Hnot as [Hne Hnot]. simpl.
  by rewrite IH, resume_other.
Qed.

Lemma offloaded_pending w func pre :
  length (tasks w) ∉ pre ->
  tasks (run_sched pre (offloaded w func)) !! length (tasks w)
  = Some (Pending (Finish (func tt))).
Proof.
  intros Hnot. rewrite run_sched_untouched by done.
  unfold offloaded. simpl. by rewrite (list_lookup_middle _ []).
Qed.

(** The awaited call ends on the turn of its future, with what [func]
    returned or raised. *)
Lemma await_offloaded func w pre post :
  length (tasks w) ∉ pre ->
  (fut <- run_concurrently func ;; await fut) w (pre ++ length (tasks w) :: post)
  = (to_status (func tt),
     resume (length (tasks w)) (run_sched pre (offloaded w func)), post).
Proof.
  intros Hnot. unfold bind at 1. unfold run_concurrently, ensure_future.
  fold (offloaded w func). unfold await, bind.
  pose proof (offloaded_pending w func pre Hnot) as Hp.
  pose proof (resume_Finish _ _ _ Hp) as Hd.
  rewrite run_until_exact.
  - unfold task_result. rewrite Hd. by destruct (func tt).
  - apply is_done_stable.
  - unfold is_done. by rewrite Hp.
  - unfold is_done. by rewrite Hd.
Qed.

(** Until the loop gets to the future, the caller stays suspended. *)
Lemma await_offloaded_blocked func w s :
  length (tasks w) ∉ s ->
  (fut <- run_concurrently func ;; await fut) w s
  = (Blocked, run_sched s (offloaded w func), []).
Proof.
  intros Hnot. unfold bind at 1. unfold run_concurrently, ensure_future.
  fold (offloaded w func). unfold await, bind.
  destruct (run_until_inv (fun w' : world => is_done w' (length (tasks w)))
              (offloaded w func) s) as (pre & Hs & Hw & Hr).
  destruct (run_until _ (offloaded w func) s) as [[r w'] s'].
  unfold status_of, world_after, schedule_left in *. simpl in *. subst w'.
  destruct Hr as [[_ Hd]|(-> & _ & ->)].
  - exfalso. unfold is_done in Hd. rewrite offloaded_pending in Hd; [done|].
    intros Hin. apply Hnot. rewrite Hs. apply elem_of_app. auto.
  - rewrite app_nil_r in Hs. by subst pre.
Qed.

Lemma length_after_turn func w pre :
  length (tasks (resume (length (tasks w)) (run_sched pre (offloaded w func))))
  = S (length (tasks w)).
Proof.
  rewrite resume_length, run_sched_length. unfold offloaded. simpl.
  rewrite length_app. simpl. lia.
Qed.

(** *** The page walker *)

(** The responses of a walk that ends: each request is executed with
    success, each continuation but the last gives the next request, and the
    last gives none. *)
Inductive page_chain (continuation : Request -> response Item -> option Request)
  : Request -> list (response Item) -> Prop :=
| chain_last req resp :
    execute cloudsql_client req = Success resp ->
    continuation req resp = None ->
    page_chain continuation req [resp]
| chain_next req resp next rest :
    execute cloudsql_client req = Success resp ->
    continuation req resp = Some next ->
    page_chain continuation next rest ->
    page_chain continuation req (resp :: rest).

Definition fetch req : M Entity Kw (response Item) (response Item) :=
  fut <- run_concurrently (fun _ => execute cloudsql_client req) ;; await fut.

Lemma walk_unfold fuel field continuation resources req w s :
  walk cloudsql_client (S fuel) field continuation resources req w s
  = match fetch req w s with
    | (Returned resp, w', s') =>
        match continuation req resp with
        | None => (Returned (resources ++ get_items field resp), w', s')
        | Some next =>
            walk cloudsql_client fuel field continuation
                 (resources ++ get_items field resp) next w' s'
        end
    | (Raised x, w', s') => (Raised x, w', s')
    | (Blocked, w', s') => (Blocked, w', s')
    end.
Proof.
  cbn [walk]. unfold fetch, bind, run_concurrently, ensure_future.
  destruct (await _ _ s) as [[[resp|x|] w'] s']; [|done..].
  by destruct (continuation req resp).
Qed.

Lemma fetch_turn req w pre post :
  length (tasks w) ∉ pre ->
  fetch req w (pre ++ length (tasks w) :: post)
  = (to_status (execute cloudsql_client req),
     resume (length (tasks w))
            (run_sched pre (offloaded w (fun _ => execute cloudsql_client req))),
     post).
Proof. apply await_offloaded. Qed.

Lemma fetch_blocked req w s :
  length (tasks w) ∉ s -> status_of (fetch req w s) = Blocked.
Proof.
  intros Hnot. unfold fetch. by rewrite await_offloaded_blocked.
Qed.

Lemma sublist_first (x : nat) (l k : list nat) :
  (x :: l) `sublist_of` k ->
  exists pre post,
    k = pre ++ x :: post /\ (x ∉ pre) /\ (l `sublist_of` post).
Proof.
  intros (k1 & k2 & -> & Hl)%sublist_cons_l.
  destruct (decide (x ∈ k1)) as [Hin|Hnot].
  - apply list_elem_of_split_l in Hin as (l1 & l2 & -> & Hl1).
    exists l1, (l2 ++ x :: k2). rewrite <- app_assoc. split; [done|].
    split; [done|]. by apply sublist_inserts_l, sublist_cons.
  - by exists k1, k2.
Qed.

(** Along a chain of pages, and with a turn of the loop for each fetch,
    the walk returns the items of the pages, page after page. *)
Lemma walk_complete field continuation first pages :
  page_chain continuation first pages ->
  forall fuel resources w s,
    length pages <= fuel ->
    seq (length (tasks w)) (length pages) `sublist_of` s ->
    status_of (walk cloudsql_client fuel field continuation resources first w s)
    = Returned (resources ++ concat (get_items field <$> pages)).
Proof.
  induction 1 as [req resp Hex Hlast|req resp next rest Hex Hnext _ IH];
    intros fuel resources w s Hfuel Hsub;
    (destruct fuel as [|fuel]; [simpl in Hfuel; lia|]);
    simpl in Hsub; apply sublist_first in Hsub as (pre & post & -> & Hpre & Hsub);
    rewrite walk_unfold, fetch_turn, Hex by done; simpl.
  - rewrite Hlast. simpl. by rewrite app_nil_r.
  - rewrite Hnext, IH.
    + by rewrite <- app_assoc.
    + simpl in Hfuel. lia.
    + by rewrite length_after_turn.
Qed.

(** If the walk returns, it has gone along a chain of pages to the one with
    no continuation, and returns their items. *)
Lemma walk_sound field continuation fuel : forall resources first w s items,
  status_of (walk cloudsql_client fuel field continuation resources first w s)
  = Returned items ->
  exists pages,
    page_chain continuation first pages /\
    items = resources ++ concat (get_items field <$> pages).
Proof.
  induction fuel as [|fuel IH]; intros resources first w s items; [done|].
  rewrite walk_unfold.
  destruct (decide (length (tasks w) ∈ s)) as [Hin|Hnot].
  - apply list_elem_of_split_l in Hin as (pre & post & -> & Hpre).
    rewrite fetch_turn by done.
    destruct (execute cloudsql_client first) as [resp|x] eqn:Hex; [|done].
    simpl. destruct (continuation first resp) as [next|] eqn:Hc.
    + intros (pages & Hchain & ->)%IH. exists (resp :: pages).
      split; [by eapply chain_next|]. simpl. by rewrite <- app_assoc.
    + intros [= <-]. exists [resp]. split; [by apply chain_last|].
      simpl. by rewrite app_nil_r.
  - pose proof (fetch_blocked first w s Hnot) as Hb.
    destruct (fetch first w s) as [[r w'] s']. unfold status_of in Hb.
    simpl in Hb. by subst r.
Qed.

(** The fuel of a walk is not felt: with more fuel than the schedule has
    turns, the walk is suspended by the schedule before it is by the fuel. *)
Lemma walk_fuel field continuation fuel1 :
  forall fuel2 resources req w s,
    length s < fuel1 -> length s < fuel2 ->
    walk cloudsql_client fuel1 field continuation resources req w s
    = walk cloudsql_client fuel2 field continuation resources req w s.
Proof.
  induction fuel1 as [|fuel1 IH]; intros fuel2 resources req w s H1 H2; [lia|].
  destruct fuel2 as [|fuel2]; [lia|]. rewrite !walk_unfold.
  destruct (decide (length (tasks w) ∈ s)) as [Hin|Hnot].
  - apply list_elem_of_split_l in Hin as (pre & post & -> & Hpre).
    rewrite fetch_turn by done.
    destruct (execute cloudsql_client req) as [resp|x]; [|done]. simpl.
    destruct (continuation req resp) as [next|]; [|done].
    rewrite length_app in H1, H2. simpl in H1, H2. apply IH; lia.
  - pose proof (fetch_blocked req w s Hnot) as Hb.
    destruct (fetch req w s) as [[r w'] s']. unfold status_of in Hb.
    simpl in Hb. by subst r.
Qed.

Lemma get_all_complete field first group pages w s :
  page_chain (list_next group) first pages ->
  seq (length (tasks w)) (length pages) `sublist_of` s ->
  status_of (get_all cloudsql_client field first group w s)
  = Returned (concat (get_items field <$> pages)).
Proof.
  intros Hchain Hsub. unfold get_all.
  rewrite (walk_complete field _ first pages Hchain); [done| |done].
  apply sublist_length in Hsub. rewrite length_seq in Hsub. lia.
Qed.

(** C8: the page walker returns the items of the pages it fetches, page after
    page and in the order each page has them; and it returns only at a page
    whose continuation gives no further request. *)
Theorem get_all_concatenates field first group w s :
  (forall pages,
     page_chain (list_next group) first pages ->
     seq (length (tasks w)) (length pages) `sublist_of` s ->
     status_of (get_all cloudsql_client field first group w s)
     = Returned (concat (get_items field <$> pages))) /\
  (forall items,
     status_of (get_all cloudsql_client field first group w s) = Returned items ->
     exists pages,
       page_chain (list_next group) first pages /\
       items = concat (get_items field <$> pages)).
Proof.
  split.
  - intros pages. apply get_all_complete.
  - unfold get_all. intros items Hret. by apply walk_sound in Hret.
Qed.

(** *** [get_users] *)

Definition users_request (project_id instance_name : string) : Request :=
  list_request (users cloudsql_client)
    {[ "project"%string := project_id; "instance"%string := instance_name ]}.

Lemma get_users_unfold project_id instance_name w s :
  get_users cloudsql_client project_id instance_name w s
  = match fetch (users_request project_id instance_name) w s with
    | (Returned resp, w', s') => (Returned (get_items "items" resp), w', s')
    | (Raised x, w', s') => (Raised x, w', s')
    | (Blocked, w', s') => (Blocked, w', s')
    end.
Proof.
  unfold get_users, fetch, bind, run_concurrently, ensure_future.
  by destruct (await _ _ s) as [[[resp|x|] w'] s'].
Qed.

Lemma get_items_absent field resp :
  fields resp !! field = None -> get_items field resp = [].
Proof. intros E. unfold get_items. by rewrite E. Qed.

(** C9: a response without the field contributes no item and is no failure:
    [get_users] returns the empty list when the response has no ["items"]
    key, and the page walker goes past a page without the field as past a
    page with no items. *)
Theorem absent_field_is_empty :
  (forall field resp,
     fields resp !! field = None -> get_items field resp = []) /\
  (forall project_id instance_name resp w s,
     execute cloudsql_client (users_request project_id instance_name)
     = Success resp ->
     fields resp !! "items"%string = None ->
     length (tasks w) ∈ s ->
     status_of (get_users cloudsql_client project_id instance_name w s)
     = Returned []) /\
  (forall field first group before resp after w s,
     page_chain (list_next group) first (before ++ resp :: after) ->
     fields resp !! field = None ->
     seq (length (tasks w)) (length (before ++ resp :: after)) `sublist_of` s ->
     status_of (get_all cloudsql_client field first group w s)
     = Returned (concat (get_items field <$> before)
                 ++ concat (get_items field <$> after))).
Proof.
  split; [exact get_items_absent|]. split.
  - intros project_id instance_name resp w s Hex Habsent Hin.
    apply list_elem_of_split_l in Hin as (pre & post & -> & Hpre).
    rewrite get_users_unfold, fetch_turn, Hex by done. simpl.
    by rewrite get_items_absent.
  - intros field first group before resp after w s Hchain Habsent Hsub.
    rewrite (get_all_complete _ _ _ _ _ _ Hchain Hsub).
    rewrite fmap_app, fmap_cons, concat_app.
    by rewrite concat_cons, get_items_absent.
Qed.

End Facade.
End CloudSQLFacts.

(** ** The facade on the sample client *)
Module CloudSQLExamples.
Import Asyncio Utils CloudSQL AsyncioFacts CloudSQLFacts SampleClient.

Local Open Scope nat_scope.

(** The two pages of backups, as the walker goes through them. *)
Lemma backups_chain :
  page_chain sample_client (list_next (backupRuns sample_client))
             ("backupRuns"%string, None) [first_page; last_page].
Proof.
  eapply chain_next; [reflexivity..|]. apply chain_last; reflexivity.
Qed.

(** Pages [{items: [1, 2], next: "T1"}] and [{items: [3], next: null}] give
    [[1, 2, 3]]. *)
Example get_backups_two_pages :
  status_of (get_backups sample_client "scout" "db-1" fresh [0; 1])
  = Returned [1; 2; 3].
Proof. vm_compute. reflexivity. Qed.

(** The second page is not asked for before the first has come. *)
Example get_backups_first_page_pending :
  status_of (get_backups sample_client "scout" "db-1" fresh [1; 1]) = Blocked.
Proof. vm_compute. reflexivity. Qed.

(** A failed fetch is raised, and nothing is returned. *)
Example get_database_instances_fails :
  status_of (get_database_instances sample_client "scout" fresh [0; 1])
  = Raised (OtherError "HttpError 404").
Proof. vm_compute. reflexivity. Qed.

Example get_users_without_items :
  status_of (get_users sample_client "scout" "db-1" fresh [0]) = Returned [].
Proof. vm_compute. reflexivity. Qed.

Lemma get_all_concatenates_witness :
  page_chain sample_client (list_next (backupRuns sample_client))
             ("backupRuns"%string, None) [first_page; last_page] /\
  seq (length (tasks fresh)) 2 `sublist_of` [0; 1] /\
  status_of (get_all sample_client "items" ("backupRuns"%string, None)
                     (backupRuns sample_client) fresh [0; 1])
  = Returned (concat (get_items "items" <$> [first_page; last_page])) /\
  concat (get_items "items" <$> [first_page; last_page]) = [1; 2; 3].
Proof.
  assert (seq (length (tasks fresh)) 2 `sublist_of` [0; 1]) as Hsub
    by (simpl; reflexivity).
  destruct (get_all_concatenates sample_client "items"
              ("backupRuns"%string, None) (backupRuns sample_client)
              fresh [0; 1]) as [Hall _].
  split; [exact backups_chain|]. split; [exact Hsub|].
  split; [exact (Hall _ backups_chain Hsub)|reflexivity].
Defined.

Lemma absent_field_is_empty_witness :
  execute sample_client (users_request sample_client "scout" "db-1")
  = Success no_users /\
  fields no_users !! "items"%string = None /\
  length (tasks fresh) ∈ [0] /\
  status_of (get_users sample_client "scout" "db-1" fresh [0]) = Returned [].
Proof.
  assert (length (tasks fresh) ∈ [0]) as Hin by apply list_elem_of_here.
  destruct (absent_field_is_empty (Entity := unit) (Kw := unit) sample_client)
    as (_ & Husers & _).
  split; [reflexivity|]. split; [reflexivity|]. split; [exact Hin|].
  exact (Husers "scout"%string "db-1"%string no_users fresh [0]
           eq_refl eq_refl Hin).
Defined.

End CloudSQLExamples.

(** * Further properties *)

(** ** More on the identifier hasher *)
Module HasherMore.
Import Hasher HasherFacts.

Local Open Scope Z_scope.

(** *** When the call fails *)

(** X1: on a string, [get_non_provider_id] raises [UnicodeEncodeError]
    exactly when the name holds a surrogate code point, and returns a digest
    exactly when it holds none. *)
Theorem get_non_provider_id_raises_iff (name : pystr) :
  Forall (fun c => is_codepoint c = true) name ->
  (get_non_provider_id name = Raised UnicodeEncodeError
   <-> Exists (fun c => is_surrogate c = true) name) /\
  ((exists digest, get_non_provider_id name = Returned digest)
   <-> Forall (fun c => is_surrogate c = false) name).
Proof.
  intros Hname.
  destruct (decide (Exists (fun c => is_surrogate c = true) name)) as [Hex|Hno].
  - pose proof (get_non_provider_id_surrogate name Hex) as Hraise.
    split; [by split|]. split.
    + intros [digest Hd]. congruence.
    + intros Hall. exfalso. apply Exists_exists in Hex as (c & Hc & Hs).
      rewrite Forall_forall in Hall. specialize (Hall c Hc). congruence.
  - assert (Forall (fun c => is_surrogate c = false) name) as Hall.
    { apply Forall_forall. intros c Hc.
      destruct (is_surrogate c) eqn:Hs; [|done].
      exfalso. apply Hno, Exists_exists. eauto. }
    assert (Forall encodable name) as Henc.
    { rewrite Forall_forall in *. intros c Hc. split; auto. }
    destruct (encode_utf8_encodable name Henc) as [bytes Hb].
    assert (get_non_provider_id name = Returned (hexdigest (sha1 bytes))) as Hd
      by (unfold get_non_provider_id; by rewrite Hb).
    split; [|split; eauto].
    split; [congruence|done].
Qed.

(** *** Where collisions can come from *)

Lemma lor_shiftl_add (a b n : Z) :
  0 <= n -> 0 <= b < 2 ^ n -> Z.lor (a * 2 ^ n) b = a * 2 ^ n + b.
Proof.
  intros Hn Hb.
  assert (Z.land (a * 2 ^ n) b = 0) as Hland.
  { apply Z.bits_inj'. intros k Hk. rewrite Z.land_spec, Z.bits_0.
    destruct (Z.lt_ge_cases k n) as [Hlt|Hge].
    - by rewrite Z.mul_pow2_bits_low by lia.
    - destruct (Z.eq_dec b 0) as [->|Hb0].
      + rewrite Z.bits_0. apply andb_false_r.
      + rewrite (Z.bits_above_log2 b k); [apply andb_false_r|lia|].
        apply Z.lt_le_trans with n; [|lia]. apply Z.log2_lt_pow2; lia. }
  rewrite <- Z.lxor_lor by exact Hland. symmetry.
  by apply Z.add_nocarry_lxor.
Qed.

Lemma continuation_byte (x : Z) :
  Z.lor 0x80 (Z.land x 0x3F) = 128 + x mod 64.
Proof.
  change 0x3F with (Z.ones 6). rewrite Z.land_ones by lia.
  change 0x80 with (1 * 2 ^ 7). rewrite lor_shiftl_add; [done|lia|].
  pose proof (Z.mod_pos_bound x (2 ^ 6)). lia.
Qed.

Lemma leading_byte (mark c shift width : Z) :
  0 <= shift -> 0 <= width -> 0 <= c < 2 ^ (shift + width) ->
  Z.lor (mark * 2 ^ width) (Z.shiftr c shift) = mark * 2 ^ width + c / 2 ^ shift.
Proof.
  intros Hs Hw Hc. rewrite Z.shiftr_div_pow2 by done.
  assert (0 < 2 ^ shift) as Hpos by by apply Z.pow_pos_nonneg.
  apply lor_shiftl_add; [done|]. split; [apply Z.div_pos; lia|].
  apply Z.div_lt_upper_bound; [done|]. rewrite <- Z.pow_add_r by done. lia.
Qed.

(** The bytes of a code point, by arithmetic. *)
Definition utf8_bytes (c : codepoint) : list Z :=
  if c <? 0x80 then [c]
  else if c <? 0x800 then [192 + c / 64; 128 + c mod 64]
  else if c <? 0x10000 then
    [224 + c / 4096; 128 + (c / 64) mod 64; 128 + c mod 64]
  else
    [240 + c / 262144; 128 + (c / 4096) mod 64; 128 + (c / 64) mod 64;
     128 + c mod 64].

Lemma encode_char_utf8_bytes (c : codepoint) (bs : list Z) :
  encode_char c = Some bs -> 0 <= c <= 0x10FFFF /\ bs = utf8_bytes c.
Proof.
  unfold encode_char, utf8_bytes, is_codepoint.
  destruct (0 <=? c) eqn:H0; [|done]. destruct (c <=? 0x10FFFF) eqn:H1; [|done].
  simpl. rewrite !continuation_byte.
  repeat case_match; intros [= <-]; (split; [lia|]).
  - done.
  - change 0xC0 with (3 * 2 ^ 6).
    rewrite (leading_byte 3 c 6 6) by lia. reflexivity.
  - change 0xE0 with (7 * 2 ^ 5).
    rewrite (leading_byte 7 c 12 5) by lia.
    rewrite !Z.shiftr_div_pow2 by lia. reflexivity.
  - change 0xF0 with (15 * 2 ^ 4).
    rewrite (leading_byte 15 c 18 4) by lia.
    rewrite !Z.shiftr_div_pow2 by lia. reflexivity.
Qed.

(** No encoding is the beginning of another: what follows the bytes of a
    code point is read apart from them. *)
Lemma utf8_bytes_inj (c1 c2 : codepoint) (rest1 rest2 : list Z) :
  0 <= c1 <= 0x10FFFF -> 0 <= c2 <= 0x10FFFF ->
  utf8_bytes c1 ++ rest1 = utf8_bytes c2 ++ rest2 ->
  c1 = c2 /\ rest1 = rest2.
Proof.
  intros H1 H2. unfold utf8_bytes.
  repeat case_match; simpl; intros [=];
    repeat match goal with
    | H : (_ <? _) = true |- _ => apply Z.ltb_lt in H
    | H : (_ <? _) = false |- _ => apply Z.ltb_ge in H
    end;
    try (exfalso; Z.div_mod_to_equations; lia).
  all: (split; [Z.div_mod_to_equations; lia|]); done.
Qed.

Lemma encode_utf8_inj (a : pystr) : forall (b : pystr) (bytes : list Z),
  encode_utf8 a = Some bytes -> encode_utf8 b = Some bytes -> a = b.
Proof.
  induction a as [|c a IH]; intros [|c' b] bytes; simpl.
  - done.
  - intros [= <-]. destruct (encode_char c') as [bs|] eqn:Hc; [|done].
    destruct (encode_utf8 b); [|done]. intros [= Hnil].
    apply encode_char_utf8_bytes in Hc as [_ ->].
    unfold utf8_bytes in Hnil. by repeat case_match.
  - destruct (encode_char c) as [bs|] eqn:Hc; [|done].
    destruct (encode_utf8 a); [|done]. intros [= <-] [= Hnil].
    apply encode_char_utf8_bytes in Hc as [_ ->].
    unfold utf8_bytes in Hnil. by repeat case_match.
  - destruct (encode_char c) as [bs|] eqn:Hc; [|done].
    destruct (encode_utf8 a) as [ra|] eqn:Ha; [|done].
    destruct (encode_char c') as [bs'|] eqn:Hc'; [|done].
    destruct (encode_utf8 b) as [rb|] eqn:Hb; [|done].
    intros [= <-] [= Heq].
    apply encode_char_utf8_bytes in Hc as [Hr ->].
    apply encode_char_utf8_bytes in Hc' as [Hr' ->].
    apply utf8_bytes_inj in Heq as [-> ->]; [|done..].
    f_equal. by apply (IH b ra).
Qed.

(** X3: two different names are hashed as two different byte strings, so
    that their identifiers are the same only if SHA-1 gives the same digest
    to different byte strings: the encoding itself never merges two names. *)
Theorem get_non_provider_id_distinct_inputs (a b : pystr) (bytes_a bytes_b : list Z) :
  encode_utf8 a = Some bytes_a ->
  encode_utf8 b = Some bytes_b ->
  a <> b ->
  bytes_a <> bytes_b /\
  (get_non_provider_id a = get_non_provider_id b
   <-> hexdigest (sha1 bytes_a) = hexdigest (sha1 bytes_b)).
Proof.
  intros Ha Hb Hne. split.
  - intros ->. apply Hne. by apply (encode_utf8_inj a b bytes_b).
  - unfold get_non_provider_id. rewrite Ha, Hb. split; congruence.
Qed.

Lemma get_non_provider_id_distinct_inputs_witness :
  encode_utf8 (str "a.b") = Some [97; 46; 98] /\
  encode_utf8 (str "a-b") = Some [97; 45; 98] /\
  str "a.b" <> str "a-b" /\
  [97; 46; 98] <> [97; 45; 98] /\
  (get_non_provider_id (str "a.b") = get_non_provider_id (str "a-b")
   <-> hexdigest (sha1 [97; 46; 98]) = hexdigest (sha1 [97; 45; 98])).
Proof.
  assert (str "a.b" <> str "a-b") as Hne by discriminate.
  split; [reflexivity|]. split; [reflexivity|]. split; [exact Hne|].
  exact (get_non_provider_id_distinct_inputs (str "a.b") (str "a-b")
           [97; 46; 98] [97; 45; 98] eq_refl eq_refl Hne).
Defined.

Lemma get_non_provider_id_raises_iff_witness :
  Forall (fun c => is_codepoint c = true) [0x61; 0xDC80; 0x62] /\
  (get_non_provider_id [0x61; 0xDC80; 0x62] = Raised UnicodeEncodeError
   <-> Exists (fun c => is_surrogate c = true) [0x61; 0xDC80; 0x62]) /\
  ((exists digest, get_non_provider_id [0x61; 0xDC80; 0x62] = Returned digest)
   <-> Forall (fun c => is_surrogate c = false) [0x61; 0xDC80; 0x62]).
Proof.
  assert (Forall (fun c => is_codepoint c = true) [0x61; 0xDC80; 0x62]) as H.
  { repeat (constructor; [reflexivity|]). constructor. }
  split; [exact H|]. exact (get_non_provider_id_raises_iff _ H).
Defined.

End HasherMore.

(** ** More on the concurrent helpers *)
Module UtilsMore.
Import Asyncio Asyncio.Notations Utils AsyncioFacts UtilsFacts.

Local Open Scope nat_scope.

Section More.
Context {Entity Kw V : Type}.
Implicit Types (w : world Entity Kw V) (s pre post : schedule).
Implicit Types (t : task_id) (fs : gset task_id) (o : outcome V).
Implicit Types (f coro : operation Entity Kw V) (e : Entity) (kw : Kw).
Implicit Types (funcs : list (operation Entity Kw V)) (entities : list Entity).

(** *** Waiting, turn by turn *)

Lemma run_until_ready (ready : world Entity Kw V -> bool) w s :
  ready w = true -> run_until ready w s = (Returned tt, w, s).
Proof. intros Hr. destruct s; simpl; by rewrite Hr. Qed.

(** A wait that had to wait ends right after a turn, before which the
    condition did not hold. *)
Lemma run_until_first (ready : world Entity Kw V -> bool) s : forall w w' s',
  ready w = false ->
  run_until ready w s = (Returned tt, w', s') ->
  exists pre t,
    s = pre ++ t :: s' /\ w' = resume t (run_sched pre w) /\
    ready (run_sched pre w) = false.
Proof.
  induction s as [|t s IH]; intros w w' s' Hf; simpl; rewrite Hf; [done|].
  destruct (ready (resume t w)) eqn:E.
  - rewrite run_until_ready by done. intros [= <- <-]. by exists [], t.
  - intros (pre & t' & -> & -> & Hpre)%IH; [|done]. by exists (t :: pre), t'.
Qed.

(** A turn adds at most the task it was on to the queue. *)
Lemma done_queue_turn fs w t :
  done_queue fs (resume t w) = done_queue fs w \/
  done_queue fs (resume t w) = done_queue fs w ++ [t].
Proof.
  unfold done_queue. destruct (resume_turn w t) as [k E|o E|]; simpl; auto.
  rewrite filter_app. destruct (decide (t ∈ fs)) as [Hin|Hnot].
  - right. by rewrite filter_cons_True.
  - left. by rewrite filter_cons_False, app_nil_r.
Qed.

Lemma prefix_same_length {A} (l k : list A) :
  l `prefix_of` k -> length k <= length l -> k = l.
Proof.
  intros [m ->] Hlen. rewrite length_app in Hlen.
  destruct m; [by rewrite app_nil_r|simpl in Hlen; lia].
Qed.

(** The task has finished with a value. *)
Definition succeeded w t : Prop :=
  exists v, tasks w !! t = Some (Finished (Success v)).

Lemma succeeded_run_sched s w t : succeeded w t -> succeeded (run_sched s w) t.
Proof. intros [v Hv]. exists v. by apply run_sched_finished. Qed.

Lemma succeeded_resume w t t' : succeeded w t' -> succeeded (resume t w) t'.
Proof. apply (succeeded_run_sched [t]). Qed.

(** *** The drain of [map_concurrently], whatever the tasks do *)

(** The drain from a point where everything queued has been taken and was a
    success.  If it returns, [n] more tasks have finished, all with values,
    and these values are returned in the order of the queue.  If it raises,
    the error is that of the task that has just joined the queue, the first
    to have failed.  If it is suspended, the schedule is used up, fewer than
    [n] more tasks have finished and none has failed. *)
Lemma collect_gen fs n : forall i acc w s r w' s',
  wf w -> length (done_queue fs w) = i ->
  Forall (succeeded w) (done_queue fs w) ->
  collect (wait_for_one fs <$> seq i n) acc w s = (r, w', s') ->
  exists pre,
    s = pre ++ s' /\ w' = run_sched pre w /\
    match r with
    | Returned vs =>
        length (done_queue fs w') = i + n /\
        Forall (succeeded w') (done_queue fs w') /\
        exists vals,
          vs = acc ++ vals /\
          Forall2 (fun t v => tasks w' !! t = Some (Finished (Success v)))
                  (drop i (done_queue fs w')) vals
    | Raised x =>
        exists oks t,
          done_queue fs w' = oks ++ [t] /\ i <= length oks < i + n /\
          tasks w' !! t = Some (Finished (Failure x)) /\
          Forall (succeeded w') oks
    | Blocked =>
        s' = [] /\ length (done_queue fs w') < i + n /\
        Forall (succeeded w') (done_queue fs w')
    end.
Proof.
  induction n as [|n IH]; intros i acc w s r w' s' Hwf Hlen Hok.
  { simpl. intros [= <- <- <-]. exists []. split; [done|]. split; [done|].
    split; [lia|]. split; [done|]. exists []. rewrite app_nil_r.
    split; [done|]. rewrite drop_ge by lia. constructor. }
  cbn [seq fmap list_fmap collect]. unfold bind at 1.
  rewrite wait_for_one_unfold.
  assert (queued fs i w = false) as Hnot
    by (unfold queued; apply Nat.ltb_ge; lia).
  destruct (run_until_inv (queued fs i) w s) as (pre1 & Hs & Hw & Hr).
  destruct (run_until (queued fs i) w s) as [[r1 w1] s1] eqn:E1.
  unfold status_of, world_after, schedule_left in *. simpl in *.
  destruct Hr as [[-> Hq]|(-> & Hq & ->)].
  - rewrite <- Hw in Hq.
    apply run_until_first in E1 as (pre & t & -> & -> & Hpre); [|done].
    clear Hs Hw pre1. set (W := run_sched pre w) in *.
    assert (wf W) as HwfW by by apply run_sched_wf.
    assert (done_queue fs W = done_queue fs w) as HqW.
    { apply prefix_same_length; [apply done_queue_mono|].
      unfold queued in Hpre. apply Nat.ltb_ge in Hpre. lia. }
    assert (done_queue fs (resume t W) = done_queue fs w ++ [t]) as Hgrow.
    { destruct (done_queue_turn fs W t) as [Hsame|Hgrow];
        [|by rewrite Hgrow, HqW].
      unfold queued in Hq. apply Nat.ltb_lt in Hq.
      rewrite Hsame, HqW in Hq. lia. }
    assert (Forall (succeeded (resume t W)) (done_queue fs w)) as Hok'.
    { eapply Forall_impl; [exact Hok|]. intros t' Ht'.
      by apply succeeded_resume, succeeded_run_sched. }
    rewrite Hgrow, (list_lookup_middle _ [] t) by done.
    destruct (done_queue_lookup fs (resume t W) i t) as [_ [o Ho]];
      [by apply resume_wf|by rewrite Hgrow, (list_lookup_middle _ [] t)|].
    unfold task_result. rewrite Ho. destruct o as [v|x].
    + intros E2. apply IH in E2 as (pre2 & -> & -> & H2).
      * exists (pre ++ t :: pre2).
        split; [by rewrite <- app_assoc|].
        split; [by rewrite run_sched_app|].
        set (w1 := resume t W) in *. set (w2 := run_sched pre2 w1) in *.
        destruct r as [vs|x|].
        -- destruct H2 as (Hlen2 & Hok2 & vals & -> & Hvals).
           split; [lia|]. split; [done|]. exists (v :: vals).
           split; [by rewrite <- app_assoc|].
           assert (done_queue fs w2 !! i = Some t) as Hi.
           { eapply prefix_lookup_Some; [|apply done_queue_mono].
             by rewrite Hgrow, (list_lookup_middle _ [] t). }
           rewrite (drop_S _ t) by done. constructor; [|done].
           by apply run_sched_finished.
        -- destruct H2 as (oks & t' & Hq2 & Hl2 & Hfail & Hoks).
           exists oks, t'. split; [done|]. split; [lia|]. done.
        -- destruct H2 as (-> & Hl2 & Hok2). split; [done|]. split; [lia|done].
      * by apply resume_wf.
      * rewrite Hgrow, length_app. simpl. lia.
      * rewrite Hgrow. apply Forall_app. split; [done|].
        apply Forall_singleton. by exists v.
    + intros [= <- <- <-]. exists (pre ++ [t]).
      split; [by rewrite <- app_assoc|].
      split; [by rewrite run_sched_app|].
      exists (done_queue fs w), t. split; [done|]. split; [lia|]. done.
  - intros [= <- <- <-]. exists pre1. rewrite app_nil_r in Hs. subst pre1 w1.
    split; [by rewrite app_nil_r|]. split; [done|]. split; [done|].
    unfold queued in Hq. apply Nat.ltb_ge in Hq. split; [lia|].
    assert (done_queue fs (run_sched s w) = done_queue fs w) as ->.
    { apply prefix_same_length; [apply done_queue_mono|lia]. }
    eapply Forall_impl; [exact Hok|]. intros t' Ht'.
    by apply succeeded_run_sched.
Qed.

(** *** [map_concurrently]: what each outcome of the call means *)

Lemma fresh_queue w calls kw n :
  wf w -> done_queue (batch w n) (spawned w calls kw) = [].
Proof.
  intros [_ Hlog]. unfold done_queue. simpl.
  assert (Forall (fun t => t ∉ batch w n) (completed w)) as Hout.
  { apply Forall_forall. intros t Ht%Hlog%is_done_Finished.
    destruct Ht as [o Ho%lookup_lt_Some]. rewrite elem_of_batch. lia. }
  clear Hlog. revert Hout. generalize (completed w). intros l Hout.
  induction Hout as [|t l Ht _ IH]; [done|]. by rewrite filter_cons_False.
Qed.

(** The loop after the call is the loop with the tasks of the batch added,
    run along the part of the schedule that the call has used. *)
Lemma collect_runs fs (l : list nat) : forall acc w s r w' s',
  collect (wait_for_one fs <$> l) acc w s = (r, w', s') ->
  exists pre, s = pre ++ s' /\ w' = run_sched pre w.
Proof.
  induction l as [|i l IH]; intros acc w s r w' s'.
  { simpl. intros [= <- <- <-]. by exists []. }
  cbn [fmap list_fmap collect]. unfold bind at 1.
  rewrite wait_for_one_unfold.
  destruct (run_until_inv (queued fs i) w s) as (pre1 & Hs & Hw & _).
  destruct (run_until (queued fs i) w s) as [[r1 w1] s1].
  unfold status_of, world_after, schedule_left in *. simpl in *. subst w1.
  destruct r1 as [[]|x|]; [|intros [= <- <- <-]; by exists pre1..].
  destruct (done_queue fs (run_sched pre1 w) !! i) as [t|];
    [|intros [= <- <- <-]; by exists pre1].
  unfold task_result.
  destruct (tasks (run_sched pre1 w) !! t) as [[c|[v|x]]|];
    try (intros [= <- <- <-]; by exists pre1).
  intros (pre2 & -> & ->)%IH. exists (pre1 ++ pre2).
  by rewrite <- app_assoc, run_sched_app.
Qed.

Lemma map_runs coro entities kw w s :
  exists pre,
    s = pre ++ schedule_left (map_concurrently coro entities kw w s) /\
    world_after (map_concurrently coro entities kw w s)
    = run_sched pre (spawned w ((fun e => (coro, e)) <$> entities) kw).
Proof.
  destruct (decide (entities = [])) as [->|Hne].
  - exists []. unfold world_after. simpl. by rewrite spawned_nil.
  - rewrite map_unfold by done.
    destruct (collect _ _ _ s) as [[r w'] s'] eqn:E.
    by apply collect_runs in E.
Qed.

Lemma map_concurrently_footprint' coro entities kw w s :
  let run := map_concurrently coro entities kw w s in
  let first := length (tasks w) in
  length (tasks (world_after run)) = first + length entities /\
  invoked (world_after run) = invoked w ++ ((fun e => (coro, e)) <$> entities) /\
  (forall i e,
     entities !! i = Some e ->
     eventual <$> tasks (world_after run) !! (first + i)
     = Some (outcome_of (coro e kw))) /\
  (forall t,
     t < first ->
     eventual <$> tasks (world_after run) !! t = eventual <$> tasks w !! t).
Proof.
  intros run first. subst run.
  destruct (map_runs coro entities kw w s) as (pre & _ & ->).
  split; [|split; [|split]].
  - by rewrite run_sched_length, length_spawned, length_fmap.
  - by rewrite run_sched_invoked.
  - intros i e He. rewrite run_sched_eventual. unfold first.
    rewrite (spawned_lookup_new _ _ _ _ coro e); [done|].
    by rewrite list_lookup_fmap, He.
  - intros t Ht. by rewrite run_sched_eventual, spawned_lookup_old.
Qed.

(** X7: whatever comes of the call, [map_concurrently] has called [coro]
    once on each entity, in order, and created one task for each: the task
    of the [i]-th entity ends as [coro] on that entity does, and the tasks
    that were in the loop before end as they would have. *)
Theorem map_concurrently_footprint coro entities kw w s :
  let run := map_concurrently coro entities kw w s in
  let first := length (tasks w) in
  length (tasks (world_after run)) = first + length entities /\
  invoked (world_after run) = invoked w ++ ((fun e => (coro, e)) <$> entities) /\
  (forall i e,
     entities !! i = Some e ->
     eventual <$> tasks (world_after run) !! (first + i)
     = Some (outcome_of (coro e kw))) /\
  (forall t,
     t < first ->
     eventual <$> tasks (world_after run) !! t = eventual <$> tasks w !! t).
Proof. apply map_concurrently_footprint'. Qed.

(** X11: nothing is cancelled.  Whatever comes of the call, also when it
    has raised, every task of the batch is still in the loop: some schedule
    brings them all to their end, and each ends as its coroutine does. *)
Theorem map_concurrently_cancels_nothing coro entities kw w s :
  let run := map_concurrently coro entities kw w s in
  let first := length (tasks w) in
  (exists s',
     all_done (batch w (length entities)) (run_sched s' (world_after run))
     = true) /\
  (forall s' i e,
     entities !! i = Some e ->
     is_done (run_sched s' (world_after run)) (first + i) = true ->
     tasks (run_sched s' (world_after run)) !! (first + i)
     = Some (Finished (outcome_of (coro e kw)))).
Proof.
  intros run first.
  destruct (map_concurrently_footprint' coro entities kw w s)
    as (Hlen & _ & Hnew & _). fold run first in Hlen, Hnew.
  split.
  - eexists. apply all_done_run_to_end. intros t Ht%elem_of_batch.
    fold first in Ht. lia.
  - intros s' i e He [o Ho]%is_done_Finished.
    pose proof (run_sched_eventual s' (world_after run) (first + i)) as Hev.
    rewrite Ho, (Hnew i e He) in Hev. simpl in Hev. congruence.
Qed.

Lemma map_inv coro entities kw w s :
  wf w -> entities <> [] ->
  let run := map_concurrently coro entities kw w s in
  let fs := batch w (length entities) in
  exists pre,
    s = pre ++ schedule_left run /\
    world_after run
    = run_sched pre (spawned w ((fun e => (coro, e)) <$> entities) kw) /\
    match status_of run with
    | Returned vs =>
        length (done_queue fs (world_after run)) = length entities /\
        Forall2 (fun t v =>
                   tasks (world_after run) !! t = Some (Finished (Success v)))
                (done_queue fs (world_after run)) vs
    | Raised x =>
        exists oks t,
          done_queue fs (world_after run) = oks ++ [t] /\
          tasks (world_after run) !! t = Some (Finished (Failure x)) /\
          Forall (succeeded (world_after run)) oks
    | Blocked =>
        schedule_left run = [] /\
        length (done_queue fs (world_after run)) < length entities /\
        Forall (succeeded (world_after run)) (done_queue fs (world_after run))
    end.
Proof.
  intros Hwf Hne run fs. subst run. rewrite map_unfold by done. fold fs.
  unfold as_completed.
  replace (size fs) with (length entities) by (symmetry; apply size_batch).
  destruct (collect _ _ _ s) as [[r w'] s'] eqn:E.
  apply collect_gen in E as (pre & -> & -> & Hr).
  - exists pre. unfold status_of, world_after, schedule_left. simpl.
    split; [done|]. split; [done|]. destruct r as [vs|x|].
    + destruct Hr as (Hlen & _ & vals & -> & Hvals).
      by rewrite drop_0 in Hvals.
    + destruct Hr as (oks & t & Hq & _ & Hfail & Hoks). eauto.
    + done.
  - by apply spawned_wf.
  - unfold fs. by rewrite fresh_queue.
  - unfold fs. by rewrite fresh_queue.
Qed.

Lemma queue_covers_batch w' first n :
  NoDup (done_queue (list_to_set (seq first n)) w') ->
  length (done_queue (list_to_set (seq first n)) w') = n ->
  done_queue (list_to_set (seq first n)) w' ≡ₚ seq first n.
Proof.
  intros Hnd Hlen. apply submseteq_length_Permutation.
  - apply NoDup_submseteq; [done|]. intros t Ht.
    apply done_queue_elem in Ht as [Ht _]. by apply elem_of_list_to_set in Ht.
  - rewrite length_seq. lia.
Qed.

(** X8: all or nothing.  If [map_concurrently] returns, every task of the
    batch has finished with a value: there is one result per entity, the
    results are those of the tasks in the order in which they finished, and
    the result of each entity is among them. *)
Theorem map_concurrently_returns_all coro entities kw w s vs :
  wf w ->
  status_of (map_concurrently coro entities kw w s) = Returned vs ->
  let w' := world_after (map_concurrently coro entities kw w s) in
  let fs := batch w (length entities) in
  length vs = length entities /\
  Forall2 (fun t v => tasks w' !! t = Some (Finished (Success v)))
          (done_queue fs w') vs /\
  (forall i e,
     entities !! i = Some e ->
     exists v,
       outcome_of (coro e kw) = Success v /\ v ∈ vs /\
       tasks w' !! (length (tasks w) + i) = Some (Finished (Success v))).
Proof.
  intros Hwf Hret w' fs.
  destruct (decide (entities = [])) as [->|Hne].
  { subst w' fs. unfold status_of, world_after in *. simpl in *.
    injection Hret as <-. rewrite batch_empty, done_queue_empty.
    split; [done|]. split; [constructor|]. intros i e He. done. }
  destruct (map_inv coro entities kw w s Hwf Hne) as (pre & _ & Hw & Hr).
  rewrite Hret in Hr. fold w' fs in Hr, Hw. destruct Hr as [Hlen Hvals].
  split; [by rewrite <- (Forall2_length _ _ _ Hvals)|]. split; [done|].
  intros i e He.
  assert (wf w') as Hwf'.
  { rewrite Hw. by apply run_sched_wf, spawned_wf. }
  pose proof (queue_covers_batch w' (length (tasks w)) (length entities)
                (done_queue_NoDup _ _ Hwf') Hlen) as Hperm.
  assert (length (tasks w) + i ∈ done_queue fs w') as Hin.
  { unfold fs, batch. rewrite Hperm. apply elem_of_seq.
    apply lookup_lt_Some in He. lia. }
  apply list_elem_of_lookup in Hin as [k Hk].
  destruct (Forall2_lookup_l _ _ _ _ _ Hvals Hk) as (v & Hv & Hdone).
  exists v. split; [|split; [by eapply list_elem_of_lookup_2|done]].
  destruct (map_concurrently_footprint' coro entities kw w s)
    as (_ & _ & Hnew & _).
  specialize (Hnew i e He). fold w' in Hnew. rewrite Hdone in Hnew.
  simpl in Hnew. congruence.
Qed.

(** X9: if [map_concurrently] raises, the error is that of [coro] on one of
    the entities, and the task of that entity is the first of the batch to
    have failed: in the order in which the tasks of the batch finish, every
    task before it gave a value.  This holds of the loop when the call ends
    and at any time after, whichever tasks finish later. *)
Theorem map_concurrently_raises_first_failure coro entities kw w s x :
  wf w ->
  status_of (map_concurrently coro entities kw w s) = Raised x ->
  let w' := world_after (map_concurrently coro entities kw w s) in
  let fs := batch w (length entities) in
  exists oks i e,
    entities !! i = Some e /\
    outcome_of (coro e kw) = Failure x /\
    forall later,
      tasks (run_sched later w') !! (length (tasks w) + i)
      = Some (Finished (Failure x)) /\
      Forall (succeeded (run_sched later w')) oks /\
      exists rest,
        done_queue fs (run_sched later w')
        = oks ++ (length (tasks w) + i) :: rest.
Proof.
  intros Hwf Hraise w' fs.
  destruct (decide (entities = [])) as [->|Hne]; [done|].
  destruct (map_inv coro entities kw w s Hwf Hne) as (pre & _ & Hw & Hr).
  rewrite Hraise in Hr. fold w' fs in Hr, Hw.
  destruct Hr as (oks & t & Hq & Hfail & Hoks).
  assert (t ∈ fs) as Ht.
  { assert (t ∈ done_queue fs w') as Hin
      by (rewrite Hq; apply elem_of_app; right; apply list_elem_of_here).
    by apply done_queue_elem in Hin as [? _]. }
  apply elem_of_batch in Ht.
  destruct (lookup_lt_is_Some_2 entities (t - length (tasks w))) as [e He];
    [lia|].
  exists oks, (t - length (tasks w)), e.
  replace (length (tasks w) + (t - length (tasks w))) with t by lia.
  split; [done|]. split.
  { destruct (map_concurrently_footprint' coro entities kw w s)
      as (_ & _ & Hnew & _).
    specialize (Hnew _ e He). fold w' in Hnew.
    replace (length (tasks w) + (t - length (tasks w))) with t in Hnew by lia.
    rewrite Hfail in Hnew. simpl in Hnew. congruence. }
  intros later. split; [by apply run_sched_finished|]. split.
  { eapply Forall_impl; [exact Hoks|]. intros t'. apply succeeded_run_sched. }
  destruct (done_queue_mono fs w' later) as [rest Hrest].
  exists rest. by rewrite Hrest, Hq, <- app_assoc.
Qed.

(** X10: if [map_concurrently] is suspended, the schedule is used up, a
    task of the batch has not finished, and none of those that have finished
    has failed. *)
Theorem map_concurrently_blocked coro entities kw w s :
  wf w ->
  status_of (map_concurrently coro entities kw w s) = Blocked ->
  let w' := world_after (map_concurrently coro entities kw w s) in
  let fs := batch w (length entities) in
  schedule_left (map_concurrently coro entities kw w s) = [] /\
  all_done fs w' = false /\
  Forall (succeeded w') (done_queue fs w').
Proof.
  intros Hwf Hblocked w' fs.
  destruct (decide (entities = [])) as [->|Hne]; [done|].
  destruct (map_inv coro entities kw w s Hwf Hne) as (pre & _ & Hw & Hr).
  rewrite Hblocked in Hr. fold w' fs in Hr, Hw.
  destruct Hr as (Hleft & Hlen & Hoks). split; [done|]. split; [|done].
  destruct (all_done fs w') eqn:Hall; [|done]. exfalso.
  assert (wf w') as Hwf'.
  { rewrite Hw. by apply run_sched_wf, spawned_wf. }
  pose proof (done_queue_full fs w' Hwf' Hall) as Hfull.
  apply Permutation_length in Hfull.
  change (length (elements fs)) with (size fs) in Hfull.
  unfold fs in Hfull at 2. rewrite size_batch in Hfull. lia.
Qed.

(** *** [run_concurrently] *)

(** The loop with the future of [func] added. *)
Definition with_future w (func : unit -> outcome V) : world Entity Kw V :=
  World (tasks w ++ [Pending (Finish (func tt))]) (completed w) (invoked w).

Lemma run_sched_skips pre w t :
  t ∉ pre -> tasks (run_sched pre w) !! t = tasks w !! t.
Proof.
  revert w. induction pre as [|t' pre IH]; intros w Hnot; [done|].
  apply not_elem_of_cons in Hnot as [Hne Hnot]. simpl.
  by rewrite IH, resume_other.
Qed.

Lemma future_pending w func pre :
  length (tasks w) ∉ pre ->
  tasks (run_sched pre (with_future w func)) !! length (tasks w)
  = Some (Pending (Finish (func tt))).
Proof.
  intros Hnot. rewrite run_sched_skips by done.
  unfold with_future. simpl. by rewrite (list_lookup_middle _ []).
Qed.

Lemma await_turn func w pre post :
  length (tasks w) ∉ pre ->
  (fut <- run_concurrently func ;; await fut) w (pre ++ length (tasks w) :: post)
  = (CloudSQLFacts.to_status (func tt),
     resume (length (tasks w)) (run_sched pre (with_future w func)), post).
Proof.
  intros Hnot. unfold bind at 1. unfold run_concurrently, ensure_future.
  fold (with_future w func). unfold await, bind.
  pose proof (future_pending w func pre Hnot) as Hp.
  pose proof (resume_Finish _ _ _ Hp) as Hd.
  rewrite run_until_exact.
  - unfold task_result. rewrite Hd. by destruct (func tt).
  - apply is_done_stable.
  - unfold is_done. by rewrite Hp.
  - unfold is_done. by rewrite Hd.
Qed.

Lemma await_never func w s :
  length (tasks w) ∉ s ->
  (fut <- run_concurrently func ;; await fut) w s
  = (Blocked, run_sched s (with_future w func), []).
Proof.
  intros Hnot. unfold bind at 1. unfold run_concurrently, ensure_future.
  fold (with_future w func). unfold await, bind.
  destruct (run_until_inv (fun w' => is_done w' (length (tasks w)))
              (with_future w func) s) as (pre & Hs & Hw & Hr).
  destruct (run_until _ (with_future w func) s) as [[r w'] s'].
  unfold status_of, world_after, schedule_left in *. simpl in *. subst w'.
  destruct Hr as [[_ Hd]|(-> & _ & ->)].
  - exfalso. unfold is_done in Hd. rewrite future_pending in Hd; [done|].
    intros Hin. apply Hnot. rewrite Hs. apply elem_of_app. auto.
  - rewrite app_nil_r in Hs. by subst pre.
Qed.

(** X4: awaiting [run_concurrently(func)] gives what [func] returns and
    raises what [func] raises, once the loop has had a turn on its future
    and not before: until then the caller is suspended.  One future is added
    to the loop. *)
Theorem await_run_concurrently func w s :
  let run := (fut <- run_concurrently func ;; await fut) w s in
  let fut := length (tasks w) in
  status_of run
  = (if bool_decide (fut ∈ s) then CloudSQLFacts.to_status (func tt)
     else Blocked) /\
  length (tasks (world_after run)) = S fut.
Proof.
  intros run fut. subst run.
  assert (forall s', length (tasks (run_sched s' (with_future w func))) = S fut)
    as Hlen.
  { intros s'. rewrite run_sched_length. unfold with_future. simpl.
    rewrite length_app. simpl. unfold fut. lia. }
  destruct (decide (fut ∈ s)) as [Hin|Hnot].
  - rewrite bool_decide_eq_true_2 by done.
    apply list_elem_of_split_l in Hin as (pre & post & -> & Hpre).
    rewrite await_turn by done.
    unfold status_of, world_after. simpl.
    split; [done|]. by rewrite resume_length.
  - rewrite bool_decide_eq_false_2 by done. rewrite await_never by done.
    unfold status_of, world_after. simpl. done.
Qed.

(** *** [get_and_set_concurrently], outcome by outcome *)

(** X6: when [get_and_set_concurrently] returns, each task of the batch
    holds the outcome of its own coroutine, value or error, whatever the
    other tasks did; and the tasks that were in the loop before end as they
    would have. *)
Theorem get_and_set_outcomes funcs entities kw w s :
  entities <> [] ->
  status_of (get_and_set_concurrently funcs entities kw w s) = Returned tt ->
  let w' := world_after (get_and_set_concurrently funcs entities kw w s) in
  (forall i f e,
     pairs funcs entities !! i = Some (f, e) ->
     tasks w' !! (length (tasks w) + i)
     = Some (Finished (outcome_of (f e kw)))) /\
  (forall t,
     t < length (tasks w) ->
     eventual <$> tasks w' !! t = eventual <$> tasks w !! t).
Proof.
  intros He Hret w'.
  destruct (decide (funcs = [])) as [->|Hf].
  { rewrite get_and_set_empty_batch in Hret by done. done. }
  destruct (get_and_set_inv funcs entities kw w s He Hf)
    as (pre & _ & Hw & [[_ Hall]|[Hb _]]); [|congruence].
  fold w' in Hw, Hall. split.
  - intros i f e Hi. rewrite all_done_spec in Hall.
    assert (length (tasks w) + i ∈ batch w (length (pairs funcs entities)))
      as Hin.
    { apply elem_of_batch. apply lookup_lt_Some in Hi. lia. }
    apply Hall, is_done_Finished in Hin as [o Ho].
    pose proof (run_sched_eventual pre (spawned w (pairs funcs entities) kw)
                  (length (tasks w) + i)) as Hev.
    rewrite <- Hw, Ho, (spawned_lookup_new _ _ _ _ f e) in Hev by done.
    simpl in Hev. rewrite Ho. congruence.
  - intros t Ht. by rewrite Hw, run_sched_eventual, spawned_lookup_old.
Qed.

(** X13: with entities and functions, [get_and_set_concurrently] never
    raises and never returns early: it has returned exactly when the
    schedule has brought every task of the batch to its end, and is
    suspended otherwise. *)
Theorem get_and_set_status funcs entities kw w s :
  entities <> [] -> funcs <> [] ->
  status_of (get_and_set_concurrently funcs entities kw w s)
  = if all_done (batch w (length (pairs funcs entities)))
                (run_sched s (spawned w (pairs funcs entities) kw))
    then Returned tt else Blocked.
Proof.
  intros He Hf.
  destruct (get_and_set_inv funcs entities kw w s He Hf)
    as (pre & Hs & Hw & Hr).
  destruct Hr as [[-> Hall]|(-> & Hnot & Hnil)].
  - rewrite Hw in Hall. rewrite Hs, run_sched_app.
    by rewrite (stable_run_sched _ _ _ (all_done_stable _) Hall).
  - rewrite Hnil, app_nil_r in Hs. subst pre. rewrite Hw in Hnot.
    by rewrite Hnot.
Qed.

End More.
End UtilsMore.

(** ** The further properties on sample batches *)
Module UtilsMoreExamples.
Import Asyncio Utils AsyncioFacts UtilsFacts UtilsMore Samples.

Local Open Scope nat_scope.

(** A failed offloaded call is raised where it is awaited, and only when
    the loop has got to its future. *)
Example offloaded_failure_awaited :
  let failing := fun _ : unit => Failure (V := nat) (OtherError "HttpError 500") in
  status_of (bind (run_concurrently failing) await (fresh (V := nat)) [0])
  = Raised (OtherError "HttpError 500") /\
  status_of (bind (run_concurrently failing) await (fresh (V := nat)) [1; 2])
  = Blocked.
Proof. vm_compute. split; reflexivity. Qed.

Lemma get_and_set_outcomes_witness :
  let run :=
    get_and_set_concurrently [describe; policy] [1; 2] tt fresh
                             (round_robin 4 2) in
  [1; 2] <> [] /\
  status_of run = Returned tt /\
  tasks (world_after run) !! (0 + 3)
  = Some (Finished (outcome_of (policy 2 tt))) /\
  tasks (world_after run) !! (0 + 2)
  = Some (Finished (outcome_of (describe 2 tt))).
Proof.
  intros run. assert ([1; 2] <> []) as Hne by discriminate.
  assert (status_of run = Returned tt) as Hret by (vm_compute; reflexivity).
  destruct (get_and_set_outcomes [describe; policy] [1; 2] tt fresh
              (round_robin 4 2) Hne Hret) as [Hnew _].
  split; [exact Hne|]. split; [exact Hret|].
  split; [exact (Hnew 3 policy 2 eq_refl)|exact (Hnew 2 describe 2 eq_refl)].
Defined.

Lemma map_concurrently_returns_all_witness :
  let run :=
    map_concurrently describe_cluster [3; 1; 2] tt fresh (round_robin 3 4) in
  wf (V := nat) fresh /\
  status_of run = Returned [10; 20; 30] /\
  length [10; 20; 30] = length [3; 1; 2] /\
  (forall i e,
     [3; 1; 2] !! i = Some e ->
     exists v,
       outcome_of (describe_cluster e tt) = Success v /\ v ∈ [10; 20; 30] /\
       tasks (world_after run) !! (0 + i) = Some (Finished (Success v))).
Proof.
  intros run.
  assert (status_of run = Returned [10; 20; 30]) as Hret
    by (vm_compute; reflexivity).
  destruct (map_concurrently_returns_all describe_cluster [3; 1; 2] tt fresh
              (round_robin 3 4) [10; 20; 30] wf_empty Hret)
    as (Hlen & _ & Heach).
  split; [exact wf_empty|]. split; [exact Hret|]. split; [exact Hlen|].
  exact Heach.
Defined.

Lemma map_concurrently_raises_first_failure_witness :
  let run :=
    map_concurrently describe_cluster_but_2 [1; 2; 3] tt fresh
                     [0; 2; 1; 0; 2; 2; 2] in
  wf (V := nat) fresh /\
  status_of run = Raised (OtherError "NotFound") /\
  exists oks i e,
    [1; 2; 3] !! i = Some e /\
    outcome_of (describe_cluster_but_2 e tt) = Failure (OtherError "NotFound") /\
    forall later,
      tasks (run_sched later (world_after run)) !! (0 + i)
      = Some (Finished (Failure (OtherError "NotFound"))) /\
      Forall (succeeded (run_sched later (world_after run))) oks /\
      exists rest,
        done_queue (batch (V := nat) fresh 3) (run_sched later (world_after run))
        = oks ++ (0 + i) :: rest.
Proof.
  intros run.
  assert (status_of run = Raised (OtherError "NotFound")) as Hraise
    by (vm_compute; reflexivity).
  split; [exact wf_empty|]. split; [exact Hraise|].
  exact (map_concurrently_raises_first_failure describe_cluster_but_2
           [1; 2; 3] tt fresh [0; 2; 1; 0; 2; 2; 2] (OtherError "NotFound")
           wf_empty Hraise).
Defined.

Lemma map_concurrently_blocked_witness :
  let run :=
    map_concurrently describe_cluster [3; 1; 2] tt fresh (round_robin 3 1) in
  wf (V := nat) fresh /\
  status_of run = Blocked /\
  schedule_left run = [] /\
  all_done (batch (V := nat) fresh 3) (world_after run) = false /\
  Forall (succeeded (world_after run))
         (done_queue (batch (V := nat) fresh 3) (world_after run)).
Proof.
  intros run.
  assert (status_of run = Blocked) as Hblocked by (vm_compute; reflexivity).
  split; [exact wf_empty|]. split; [exact Hblocked|].
  exact (map_concurrently_blocked describe_cluster [3; 1; 2] tt fresh
           (round_robin 3 1) wf_empty Hblocked).
Defined.

Lemma get_and_set_status_witness :
  [1; 2] <> [] /\
  [describe; policy] <> [] /\
  status_of (get_and_set_concurrently [describe; policy] [1; 2] tt fresh
               (round_robin 4 1))
  = (if all_done (batch (V := unit) fresh
                        (length (pairs [describe; policy] [1; 2])))
                 (run_sched (round_robin 4 1)
                    (spawned fresh (pairs [describe; policy] [1; 2]) tt))
     then Returned tt else Blocked) /\
  all_done (batch (V := unit) fresh (length (pairs [describe; policy] [1; 2])))
           (run_sched (round_robin 4 1)
              (spawned fresh (pairs [describe; policy] [1; 2]) tt))
  = false.
Proof.
  assert ([1; 2] <> []) as He by discriminate.
  assert ([describe; policy] <> []) as Hf by discriminate.
  split; [exact He|]. split; [exact Hf|].
  split; [|vm_compute; reflexivity].
  exact (get_and_set_status [describe; policy] [1; 2] tt fresh
           (round_robin 4 1) He Hf).
Defined.

End UtilsMoreExamples.

(** ** More on the Cloud SQL facade *)
Module CloudSQLMore.
Import Asyncio Asyncio.Notations Utils CloudSQL AsyncioFacts CloudSQLFacts.

Local Open Scope nat_scope.

Section Users.
Context {Entity Kw Item Request : Type}.
Variable cloudsql_client : client Item Request.
Implicit Types (w : world Entity Kw (response Item)) (s : schedule).

(** X12: [get_users] makes one offloaded call and no more, whether or not
    the response carries a continuation token.  Once the loop has got to
    the future of that call, it returns the items of the response (none if
    there is no ["items"] key) or raises the error of the call; until then
    it is suspended. *)
Theorem get_users_one_call (project_id instance_name : string) w s :
  let run := get_users cloudsql_client project_id instance_name w s in
  status_of run
  = (if bool_decide (length (tasks w) ∈ s) then
       match execute cloudsql_client
               (users_request cloudsql_client project_id instance_name) with
       | Success resp => Returned (get_items "items" resp)
       | Failure x => Raised x
       end
     else Blocked) /\
  length (tasks (world_after run)) = S (length (tasks w)) /\
  invoked (world_after run) = invoked w.
Proof.
  intros run. subst run. rewrite get_users_unfold.
  set (req := users_request cloudsql_client project_id instance_name).
  destruct (decide (length (tasks w) ∈ s)) as [Hin|Hnot].
  - rewrite bool_decide_eq_true_2 by done.
    apply list_elem_of_split_l in Hin as (pre & post & -> & Hpre).
    rewrite fetch_turn by done.
    assert (length (tasks (resume (length (tasks w))
              (run_sched pre (offloaded w
                 (fun _ => execute cloudsql_client req))))) = S (length (tasks w)))
      as Hlen by apply length_after_turn.
    assert (invoked (resume (length (tasks w))
              (run_sched pre (offloaded w
                 (fun _ => execute cloudsql_client req)))) = invoked w)
      as Hinv by by rewrite resume_invoked, run_sched_invoked.
    destruct (execute cloudsql_client req) as [resp|x];
      unfold status_of, world_after; simpl; done.
  - rewrite bool_decide_eq_false_2 by done.
    unfold fetch. rewrite await_offloaded_blocked by done.
    unfold status_of, world_after. simpl. split; [done|].
    rewrite run_sched_length, run_sched_invoked. unfold offloaded. simpl.
    rewrite length_app. simpl. split; [lia|done].
Qed.

End Users.
End CloudSQLMore.
